(** * Item-item collaborative filtering: [movie_recommendations.py]

    A shallow embedding of the classes [Movie_Recommendations] and [Movie]
    and the properties of their similarity and prediction methods.

    Conventions of the embedding.
    - Python dictionaries are finite maps ([gmap]); the list [Movie.users]
      stays a list, since the code appends to it and scans it in order.
    - Python numbers (the ratings are [float]s, the literals [0] are [int]s)
      are idealised as exact rationals [Q]: rounding is not modelled.
      Python's numeric [==] is [Qeq] (written [==]).
    - A [Movie] object is only ever reached through [movie_dict]; a method
      receiver is therefore named by the key it is stored under.
    - Exceptions are values of [exn]; mutation of the objects persists when
      an exception is raised, so every method is a function from the state
      to a result together with the state it leaves behind. *)

From Stdlib Require Import QArith Qabs Lqa Ascii.
From stdpp Require Import gmap list strings pretty.

Local Open Scope Z_scope.

(** ** Exceptions and the two monads *)

Inductive exn := KeyError | TypeError | BadInputError.

Global Instance exn_eq_dec : EqDecision exn.
Proof. solve_decision. Defined.

Inductive result (A : Type) :=
  | Ok (a : A)
  | Err (e : exn).
Arguments Ok {A} a.
Arguments Err {A} e.

Global Instance result_bind : MBind result := fun A B k r =>
  match r with
  | Ok a => k a
  | Err e => Err e
  end.

(** ** Data model *)

Module Movie.

(** [class Movie]: lines 103-130. *)
Record t := Make {
  id : Z;
  title : string;
  users : list Z;
  similarities : gmap Z Q
}.

(** [self.similarities[k] = v] *)
Definition set_similarity (k : Z) (v : Q) (m : t) : t :=
  {| id := id m; title := title m; users := users m;
     similarities := <[k := v]> (similarities m) |}.

(** What the engine never writes: everything except the cache. *)
Definition data (m : t) : Z * string * list Z := (id m, title m, users m).

End Movie.

(** The [Movie_Recommendations] object.  [computed] is a ghost trace, not a
    field of the Python object: it records every invocation of
    [compute_similarity] as (receiver, other_movie_id), most recent first. *)
Record State := MkState {
  movie_dict : gmap Z Movie.t;
  user_dict : gmap Z (gmap Z Q);
  computed : list (Z * Z)
}.

Definition M (A : Type) : Type := State -> result A * State.

Definition ret {A} (a : A) : M A := fun c => (Ok a, c).
Global Instance M_bind : MBind M := fun A B k m c =>
  match m c with
  | (Ok a, c') => k a c'
  | (Err e, c') => (Err e, c')
  end.
(** Reading the state without changing it. *)
Definition read {A} (f : State -> result A) : M A := fun c => (f c, c).
Definition modify (f : State -> State) : M unit := fun c => (Ok tt, f c).

(** [try: body except KeyError: raise BadInputError] *)
Definition try_KeyError {A} (body : M A) : M A :=
  fun c => match body c with
           | (Err KeyError, c') => (Err BadInputError, c')
           | r => r
           end.

(** [d[k]] on a dictionary. *)
Definition getitem {V} (d : gmap Z V) (k : Z) : result V :=
  match d !! k with
  | Some v => Ok v
  | None => Err KeyError
  end.

(** Python's [sum] over a list of numbers: a left fold from [0]. *)
Definition Qsum (l : list Q) : Q := fold_left Qplus l 0%Q.

(** ** [Movie.compute_similarity], lines 176-207 *)

(** Lines 184-187: each iteration evaluates [movie_dict[other_movie_id]]. *)
Fixpoint common_users_loop (c : State) (other_movie_id : Z)
    (users : list Z) (common_users : list Z) : result (list Z) :=
  match users with
  | [] => Ok common_users
  | user :: rest =>
      other ← getitem (movie_dict c) other_movie_id;
      common_users_loop c other_movie_id rest
        (if decide (user ∈ Movie.users other)
         then common_users ++ [user] else common_users)
  end.

(** Lines 189-193: [dict.get] gives [None] for a missing key. *)
Fixpoint ratings_loop (c : State) (self_id other_movie_id : Z)
    (common_users : list Z) (self_ratings another_ratings : list (option Q))
    : result (list (option Q) * list (option Q)) :=
  match common_users with
  | [] => Ok (self_ratings, another_ratings)
  | user :: rest =>
      d1 ← getitem (user_dict c) user;
      d2 ← getitem (user_dict c) user;
      ratings_loop c self_id other_movie_id rest
        (self_ratings ++ [d1 !! self_id])
        (another_ratings ++ [d2 !! other_movie_id])
  end.

(** [abs(x - y)]; subtracting with [None] is a [TypeError]. *)
Definition abs_sub (x y : option Q) : result Q :=
  match x, y with
  | Some p, Some q => Ok (Qabs (p - q))
  | _, _ => Err TypeError
  end.

(** Lines 201-203: both lists are as long as [common_users], and the loop
    index walks them together. *)
Fixpoint diff_loop (self_ratings another_ratings : list (option Q))
    (diff_list : list Q) : result (list Q) :=
  match self_ratings, another_ratings with
  | x :: xs, y :: ys =>
      diff ← abs_sub x y;
      diff_loop xs ys (diff_list ++ [diff])
  | _, _ => Ok diff_list
  end.

(** [self.similarities[other_movie_id] = similarity] for the object stored
    under [self]. *)
Definition store_similarity (self other_movie_id : Z) (similarity : Q)
    (c : State) : State :=
  {| movie_dict := alter (Movie.set_similarity other_movie_id similarity)
                         self (movie_dict c);
     user_dict := user_dict c;
     computed := computed c |}.

Definition record_call (self other_movie_id : Z) (c : State) : State :=
  {| movie_dict := movie_dict c;
     user_dict := user_dict c;
     computed := (self, other_movie_id) :: computed c |}.

(** The receiver is the object the caller obtained as [movie_dict[self]]:
    that lookup is the first step here, and fails with the caller's
    [KeyError] before the method body runs. *)
Definition compute_similarity (self other_movie_id : Z) : M Q :=
  me ← read (fun c => getitem (movie_dict c) self);
  modify (record_call self other_movie_id);;
  common_users ← read (fun c =>
    common_users_loop c other_movie_id (Movie.users me) []);
  ratings ← read (fun c =>
    ratings_loop c (Movie.id me) other_movie_id common_users [] []);
  if decide (length common_users = 0%nat) then ret 0%Q
  else
    diff_list ← read (fun _ => diff_loop ratings.1 ratings.2 []);
    let avg_diff := (Qsum diff_list / inject_Z (Z.of_nat (length common_users)))%Q in
    let similarity := (1 - avg_diff / 4.5)%Q in
    modify (store_similarity self other_movie_id similarity);;
    ret similarity.

(** ** [Movie.get_similarity], lines 153-174

    The caller's lookup of the receiver is outside the method's [try]. *)

Definition get_similarity (self other_movie_id : Z) : M Q :=
  me ← read (fun c => getitem (movie_dict c) self);
  try_KeyError (
    if decide (is_Some (Movie.similarities me !! other_movie_id)) then
      read (fun _ => getitem (Movie.similarities me) other_movie_id)
    else
      similarity ← compute_similarity self other_movie_id;
      modify (store_similarity self other_movie_id similarity);;
      _ ← read (fun c => getitem (movie_dict c) other_movie_id);
      modify (store_similarity other_movie_id (Movie.id me) similarity);;
      ret similarity).

(** ** [Movie_Recommendations.predict_rating], lines 50-75 *)

(** Lines 64-68.  The loop runs over the keys of the user's dictionary;
    [map_to_list] enumerates them in key order where Python uses insertion
    order. *)
Fixpoint predict_loop (user_id movie_id : Z) (movies : list Z)
    (product_1 sim : Q) : M (Q * Q) :=
  match movies with
  | [] => ret (product_1, sim)
  | movie :: rest =>
      d ← read (fun c => getitem (user_dict c) user_id);
      rating ← read (fun _ => getitem d movie);
      similarity ← compute_similarity movie movie_id;
      predict_loop user_id movie_id rest
        (product_1 + rating * similarity)%Q (sim + similarity)%Q
  end.

Definition predict_rating (user_id movie_id : Z) : M Q :=
  try_KeyError (
    d ← read (fun c => getitem (user_dict c) user_id);
    if decide (is_Some (d !! movie_id)) then
      d' ← read (fun c => getitem (user_dict c) user_id);
      read (fun _ => getitem d' movie_id)
    else
      d' ← read (fun c => getitem (user_dict c) user_id);
      acc ← predict_loop user_id movie_id (map_to_list d').*1 0%Q 0%Q;
      if Qeq_bool acc.2 0 then ret 2.5%Q
      else ret (acc.1 / acc.2)%Q).

(** ** [Movie_Recommendations.predict_ratings], lines 77-93 *)

(** A row of the test file after [int(...)], [int(...)], [float(...)]. *)
Definition row : Type := Z * Z * Q.
Definition prediction : Type := Z * string * Q * Q.

Fixpoint predict_ratings_loop (rows : list row) (tuples : list prediction)
    : M (list prediction) :=
  match rows with
  | [] => ret tuples
  | (user_id, movie_id, actual_rating) :: rest =>
      predicted ← predict_rating user_id movie_id;
      movie ← read (fun c => getitem (movie_dict c) movie_id);
      predict_ratings_loop rest
        (tuples ++ [(user_id, Movie.title movie, predicted, actual_rating)])
  end.

Definition predict_ratings (rows : list row) : M (list prediction) :=
  predict_ratings_loop rows [].

(** ** [Movie_Recommendations.__init__], lines 21-47

    The two files are taken as already split into fields and converted. *)

(** Lines 28-31. *)
Definition load_movies (movies : list (Z * string)) : gmap Z Movie.t :=
  foldl (fun d line => <[line.1 := Movie.Make line.1 line.2 [] ∅]> d) ∅ movies.

(** Lines 38-47, one line of the training file. *)
Definition load_rating (line : Z * Z * Q) : M unit :=
  let '(userid, movieid, movierating) := line in
  _ ← read (fun c => getitem (movie_dict c) movieid);
  modify (fun c =>
    {| movie_dict :=
         alter (fun m => Movie.Make (Movie.id m) (Movie.title m)
                           (Movie.users m ++ [userid]) (Movie.similarities m))
               movieid (movie_dict c);
       user_dict :=
         match user_dict c !! userid with
         | Some this_user_dict =>
             <[userid := <[movieid := movierating]> this_user_dict]> (user_dict c)
         | None => <[userid := {[movieid := movierating]}]> (user_dict c)
         end;
       computed := computed c |}).

Fixpoint load_ratings (lines : list (Z * Z * Q)) : M unit :=
  match lines with
  | [] => ret tt
  | line :: rest => load_rating line;; load_ratings rest
  end.

Definition init (movies : list (Z * string)) (ratings : list (Z * Z * Q))
    : result unit * State :=
  load_ratings ratings (MkState (load_movies movies) ∅ []).

(** The state after one line of the training file, for a known movie. *)
Definition with_rating (c : State) (userid movieid : Z) (movierating : Q) : State :=
  (load_rating (userid, movieid, movierating) c).2.

(** ** Sequences of engine operations *)

Inductive op :=
  | GetSimilarity (a b : Z)
  | PredictRating (user_id movie_id : Z).

Definition exec (c : State) (o : op) : State :=
  match o with
  | GetSimilarity a b => (get_similarity a b c).2
  | PredictRating u m => (predict_rating u m c).2
  end.

Definition run (ops : list op) (c : State) : State := foldl exec c ops.

(** [self.movie_dict[a].similarities.get(b)] *)
Definition cached (c : State) (a b : Z) : option Q :=
  m ← movie_dict c !! a; Movie.similarities m !! b.

(** ** Catalog integrity and the similarity formula *)

(** The users recorded as having rated movie [k]; none for an unknown id. *)
Definition raters (c : State) (k : Z) : list Z :=
  from_option Movie.users [] (movie_dict c !! k).

(** [user_dict[u].get(k)] when [u] is known. *)
Definition rating_of (c : State) (u k : Z) : option Q :=
  d ← user_dict c !! u; d !! k.

Definition rating (c : State) (u k : Z) : Q := default 0%Q (rating_of c u k).

Global Instance Q_eq_dec : EqDecision Q.
Proof. solve_decision. Defined.

(** What the load path establishes: a movie is stored under its own id, its
    rater list has no repetition, every rater is a known user holding a
    rating for it; every known user has rated something, and is listed as a
    rater of each movie they rated (so that movie is in the catalog). *)
Definition wf (c : State) : Prop :=
  map_Forall (fun k m =>
      Movie.id m = k ∧ NoDup (Movie.users m) ∧
      Forall (fun u => is_Some (rating_of c u k)) (Movie.users m))
    (movie_dict c)
  ∧ map_Forall (fun u d =>
      d ≠ ∅ ∧ map_Forall (fun k _ => u ∈ raters c k) d)
    (user_dict c).

Global Instance wf_dec c : Decision (wf c).
Proof. unfold wf. apply _. Defined.

(** A freshly loaded catalog: well formed, nothing cached, nothing computed. *)
Definition loaded (c : State) : Prop :=
  wf c ∧ computed c = [] ∧
  map_Forall (fun _ m => Movie.similarities m = ∅) (movie_dict c).

Global Instance loaded_dec c : Decision (loaded c).
Proof. unfold loaded. apply _. Defined.

(** The state restricted to what the engines only read. *)
Definition same_data (c' c : State) : Prop :=
  user_dict c' = user_dict c ∧
  ∀ k, Movie.data <$> movie_dict c' !! k = Movie.data <$> movie_dict c !! k.

(** The similarity of section 4.1 over an enumeration [cs] of the common
    raters: 0 without common raters, else one minus the mean absolute
    difference of the two ratings over 4.5. *)
Definition abs_diff (c : State) (a b u : Z) : Q :=
  Qabs (rating c u a - rating c u b).

Definition mean_abs_diff (c : State) (a b : Z) (cs : list Z) : Q :=
  (Qsum (abs_diff c a b <$> cs) / inject_Z (Z.of_nat (length cs)))%Q.

Definition similarity_over (c : State) (a b : Z) (cs : list Z) : Q :=
  if decide (cs = []) then 0%Q else (1 - mean_abs_diff c a b cs / 4.5)%Q.

Definition common_raters (c : State) (a b : Z) : list Z :=
  filter (fun u => u ∈ raters c b) (raters c a).

Definition similarity (c : State) (a b : Z) : Q :=
  similarity_over c a b (common_raters c a b).

(** Every cached value is the similarity of the pair it is filed under. *)
Definition cache_valid (c : State) : Prop :=
  ∀ a b s, cached c a b = Some s → (s == similarity c a b)%Q.

(** The weighted average of section 4.2 over the user's ratings [d]. *)
Definition weighted_sum (c : State) (d : gmap Z Q) (movie_id : Z) : Q :=
  Qsum ((fun kr => (kr.2 * similarity c kr.1 movie_id)%Q) <$> map_to_list d).

Definition weight_sum (c : State) (d : gmap Z Q) (movie_id : Z) : Q :=
  Qsum ((fun kr => similarity c kr.1 movie_id) <$> map_to_list d).

Definition weighted_average (c : State) (d : gmap Z Q) (movie_id : Z) : Q :=
  if Qeq_bool (weight_sum c d movie_id) 0 then 2.5%Q
  else (weighted_sum c d movie_id / weight_sum c d movie_id)%Q.

(** ** States after a computation, and the frame of a computation *)

(** The state [compute_similarity a b] leaves behind when it succeeds. *)
Definition after_compute (c : State) (a b : Z) : State :=
  if decide (common_raters c a b = []) then record_call a b c
  else store_similarity a b (similarity c a b) (record_call a b c).

(** The state a cache miss on a known pair leaves behind. *)
Definition after_miss (c : State) (a b : Z) : State :=
  store_similarity b a (similarity c a b)
    (store_similarity a b (similarity c a b) (after_compute c a b)).

(** Every computation of the engine preserves the data. *)
Definition frames {A} (m : M A) : Prop := ∀ c, same_data (m c).2 c.
(** ** Statements about batches and about the zero of the similarity *)

(** Both ids of a row are in the catalog. *)
Definition known (c : State) (r : row) : Prop :=
  is_Some (user_dict c !! r.1.1) ∧ is_Some (movie_dict c !! r.1.2).

(** [t] is the tuple emitted for row [r]: the user id, the title of the
    movie, what [predict_rating] returns for the pair, the actual rating. *)
Definition emitted (c : State) (r : row) (t : prediction) : Prop :=
  ∃ mv p, movie_dict c !! r.1.2 = Some mv ∧
          (predict_rating r.1.1 r.1.2 c).1 = Ok p ∧
          t = (r.1.1, Movie.title mv, p, r.2).


(** The symmetry invariant of the caches, over the movies of the catalog. *)
Definition cache_symmetric (c : State) : Prop :=
  ∀ a b, is_Some (movie_dict c !! a) → is_Some (movie_dict c !! b) →
         cached c a b = cached c b a.

(** ** Bounded ratings *)

Global Instance Qle_dec (x y : Q) : Decision (x <= y)%Q :=
  match Qlt_le_dec y x with
  | left H => right (Qlt_not_le y x H)
  | right H => left H
  end.

(** Every rating of the catalog lies between [lo] and [hi]. *)
Definition ratings_within (c : State) (lo hi : Q) : Prop :=
  map_Forall (fun _ d => map_Forall (fun _ r => (lo <= r)%Q ∧ (r <= hi)%Q) d)
             (user_dict c).

(** ** [Movie.__str__], lines 133-138

    [str] of an [int] is its decimal notation, which is stdpp's [pretty]. *)
Definition Movie_str (self : Movie.t) : string :=
  "id: " +:+ pretty (Movie.id self) +:+ " title: " +:+ Movie.title self.

(** Whether a string contains a space. *)
Fixpoint has_space (s : string) : bool :=
  match s with
  | EmptyString => false
  | String a s' => if decide (a = " "%char) then true else has_space s'
  end.

(** ** Example catalogs *)

(** The catalog of the end-to-end example: two movies, users 10 and 11 rated
    both, user 12 rated movie 1 only. *)
Definition demo : State :=
  (init [(1, "A"); (2, "B")]
        [(10, 1, 4%Q); (10, 2, 5%Q); (11, 1, 2%Q); (11, 2, 2%Q);
         (12, 1, 3%Q)]).2.

(** Movie 2 is in the catalog and nobody rated it. *)
Definition sparse : State :=
  (init [(1, "A"); (2, "B")] [(10, 1, 4%Q)]).2.

(** Three movies; user 10 rated movies 1 and 2, user 11 movies 3 and 1. *)
Definition triple : State :=
  (init [(1, "A"); (2, "B"); (3, "C")]
        [(10, 1, 4%Q); (10, 2, 5%Q); (11, 3, 2%Q); (11, 1, 1%Q)]).2.


(** One common rater who gave 0.5 to one movie and 5.0 to the other. *)
Definition extremes : State :=
  (init [(1, "A"); (2, "B")] [(10, 1, 0.5%Q); (10, 2, 5%Q)]).2.

(** * Properties *)

(** ** Sums of rationals *)

Lemma fold_left_Qplus_acc (l : list Q) (a : Q) :
  (fold_left Qplus l a == a + Qsum l)%Q.
Proof.
  unfold Qsum. revert a. induction l as [|x l IH]; intros a; simpl.
  - ring.
  - rewrite (IH (a + x)%Q), (IH (0 + x)%Q). ring.
Qed.

Lemma Qsum_cons (x : Q) (l : list Q) : (Qsum (x :: l) == x + Qsum l)%Q.
Proof.
  unfold Qsum at 1. simpl. rewrite fold_left_Qplus_acc. ring.
Qed.

Lemma Qsum_perm (l k : list Q) : l ≡ₚ k → (Qsum l == Qsum k)%Q.
Proof.
  induction 1 as [|x l k _ IH|x y l|l k j _ IH1 _ IH2].
  - reflexivity.
  - rewrite !Qsum_cons, IH. reflexivity.
  - rewrite !Qsum_cons. ring.
  - rewrite IH1. exact IH2.
Qed.

Lemma Qsum_all_zero (l : list Q) :
  Forall (fun x => (x == 0)%Q) l → (Qsum l == 0)%Q.
Proof.
  induction 1 as [|x l Hx _ IH].
  - reflexivity.
  - rewrite Qsum_cons, Hx, IH. ring.
Qed.

Lemma fold_left_Qplus_map {A} (f : A → Q) (l : list A) (a : Q) :
  fold_left (fun acc x => (acc + f x)%Q) l a = fold_left Qplus (f <$> l) a.
Proof. revert a. induction l as [|x l IH]; intros a; simpl; [done|apply IH]. Qed.

(** ** The loops of [compute_similarity] *)

Lemma common_users_loop_run c b mb us acc :
  movie_dict c !! b = Some mb →
  common_users_loop c b us acc
  = Ok (acc ++ filter (fun u => u ∈ Movie.users mb) us).
Proof.
  intros Hb. revert acc. induction us as [|u us IH]; intros acc; simpl.
  - by rewrite app_nil_r.
  - unfold getitem. rewrite Hb. simpl. rewrite IH.
    rewrite filter_cons. destruct (decide (u ∈ Movie.users mb)).
    + by rewrite <- app_assoc.
    + done.
Qed.

Lemma common_users_loop_absent c b us acc :
  movie_dict c !! b = None →
  common_users_loop c b us acc
  = match us with [] => Ok acc | _ => Err KeyError end.
Proof.
  intros Hb. destruct us as [|u us]; simpl; [done|].
  unfold getitem. by rewrite Hb.
Qed.

Lemma ratings_loop_run c sid b cs xs ys :
  Forall (fun u => is_Some (user_dict c !! u)) cs →
  ratings_loop c sid b cs xs ys
  = Ok (xs ++ ((fun u => rating_of c u sid) <$> cs),
        ys ++ ((fun u => rating_of c u b) <$> cs)).
Proof.
  intros H. revert xs ys. induction H as [|u cs [d Hd] _ IH]; intros xs ys; simpl.
  - by rewrite !app_nil_r.
  - unfold getitem. rewrite Hd. simpl. rewrite IH.
    unfold rating_of. rewrite Hd. simpl. by rewrite <- !app_assoc.
Qed.

Lemma diff_loop_run c a b cs acc :
  Forall (fun u => is_Some (rating_of c u a) ∧ is_Some (rating_of c u b)) cs →
  diff_loop ((fun u => rating_of c u a) <$> cs)
            ((fun u => rating_of c u b) <$> cs) acc
  = Ok (acc ++ (abs_diff c a b <$> cs)).
Proof.
  intros H. revert acc.
  induction H as [|u cs [[p Hp] [q Hq]] _ IH]; intros acc; simpl.
  - by rewrite app_nil_r.
  - rewrite Hp, Hq. simpl. rewrite IH. rewrite <- app_assoc. simpl.
    unfold abs_diff, rating. by rewrite Hp, Hq.
Qed.

(** ** What the engines leave alone *)

Lemma same_data_refl c : same_data c c.
Proof. by split. Qed.

Lemma same_data_trans c1 c2 c3 :
  same_data c1 c2 → same_data c2 c3 → same_data c1 c3.
Proof.
  intros [Hu1 Hm1] [Hu2 Hm2]. split; [congruence|].
  intros k. by rewrite Hm1.
Qed.

Lemma same_data_record_call a b c : same_data (record_call a b c) c.
Proof. by split. Qed.

Lemma same_data_store a b s c : same_data (store_similarity a b s c) c.
Proof.
  split; [done|]. intros k. simpl. rewrite lookup_alter.
  destruct (decide (a = k)) as [->|]; [|done].
  by destruct (movie_dict c !! k).
Qed.

Lemma same_data_raters c' c k : same_data c' c → raters c' k = raters c k.
Proof.
  intros [_ Hm]. unfold raters. specialize (Hm k).
  destruct (movie_dict c' !! k), (movie_dict c !! k); simpl in *;
    [|done..]. by injection Hm.
Qed.

Lemma same_data_rating_of c' c u k :
  same_data c' c → rating_of c' u k = rating_of c u k.
Proof. intros [Hu _]. unfold rating_of. by rewrite Hu. Qed.

Lemma same_data_present c' c k :
  same_data c' c → is_Some (movie_dict c' !! k) ↔ is_Some (movie_dict c !! k).
Proof.
  intros [_ Hm]. rewrite <- !(fmap_is_Some Movie.data). by rewrite Hm.
Qed.

Lemma same_data_similarity c' c a b :
  same_data c' c → similarity c' a b = similarity c a b.
Proof.
  intros H. unfold similarity, common_raters, similarity_over, mean_abs_diff.
  rewrite !(same_data_raters c' c) by done.
  set (cs := filter _ _).
  replace (abs_diff c' a b <$> cs) with (abs_diff c a b <$> cs); [done|].
  apply list_fmap_ext. intros _ u _. unfold abs_diff, rating.
  by rewrite !(same_data_rating_of c' c).
Qed.

Lemma same_data_wf c' c : same_data c' c → wf c → wf c'.
Proof.
  intros Hsd [Hm Hu]. split.
  - intros k m' Hk. destruct Hsd as [Hud Hmd].
    pose proof (Hmd k) as Hk'. rewrite Hk in Hk'. simpl in Hk'.
    destruct (movie_dict c !! k) as [m|] eqn:Hck; [|done].
    simpl in Hk'. injection Hk' as Hid _ Hus.
    destruct (Hm k m Hck) as (Hi & Hn & Hf).
    rewrite Hid, Hus. split_and!; [done..|].
    eapply Forall_impl; [exact Hf|]. intros u Hr. simpl in Hr.
    unfold rating_of in *. by rewrite Hud.
  - pose proof Hsd as [Hud _]. rewrite Hud.
    intros u d Hd. destruct (Hu u d Hd) as [Hne Hall]. split; [done|].
    intros k r Hkr. rewrite (same_data_raters c' c) by done.
    exact (Hall k r Hkr).
Qed.

Lemma frames_ret {A} (a : A) : frames (ret a).
Proof. intros c. apply same_data_refl. Qed.

Lemma frames_read {A} (f : State → result A) : frames (read f).
Proof. intros c. apply same_data_refl. Qed.

Lemma frames_bind {A B} (m : M A) (k : A → M B) :
  frames m → (∀ a, frames (k a)) → frames (m ≫= k).
Proof.
  intros Hm Hk c. unfold mbind, M_bind. specialize (Hm c).
  destruct (m c) as [[a|e] c1]; simpl in *; [|done].
  eapply same_data_trans; [apply Hk|done].
Qed.

Lemma frames_try {A} (m : M A) : frames m → frames (try_KeyError m).
Proof.
  intros Hm c. unfold try_KeyError. specialize (Hm c).
  by destruct (m c) as [[a|[]] c1].
Qed.

Lemma frames_store a b s : frames (modify (store_similarity a b s)).
Proof. intros c. apply same_data_store. Qed.

Lemma frames_record a b : frames (modify (record_call a b)).
Proof. intros c. apply same_data_record_call. Qed.

Create HintDb frames discriminated.
#[local] Hint Resolve frames_ret frames_read frames_try frames_store
  frames_record : frames.
#[local] Hint Extern 2 (frames (_ ≫= _)) =>
  apply frames_bind; [|intros ?] : frames.
#[local] Hint Extern 2 (frames (if ?b then _ else _)) => destruct b : frames.

Lemma frames_compute_similarity a b : frames (compute_similarity a b).
Proof. unfold compute_similarity. auto 20 with frames. Qed.

Lemma frames_get_similarity a b : frames (get_similarity a b).
Proof.
  unfold get_similarity. pose proof frames_compute_similarity.
  auto 20 with frames.
Qed.

Lemma frames_predict_loop u m ks p s : frames (predict_loop u m ks p s).
Proof.
  revert p s. induction ks as [|k ks IH]; intros p s; simpl.
  - auto with frames.
  - pose proof frames_compute_similarity. auto 20 with frames.
Qed.

Lemma frames_predict_rating u m : frames (predict_rating u m).
Proof.
  unfold predict_rating. pose proof frames_predict_loop.
  auto 20 with frames.
Qed.

Lemma frames_predict_ratings_loop rows acc :
  frames (predict_ratings_loop rows acc).
Proof.
  revert acc. induction rows as [|[[u m] r] rows IH]; intros acc; simpl.
  - auto with frames.
  - pose proof frames_predict_rating. auto 20 with frames.
Qed.

Lemma same_data_exec c o : same_data (exec c o) c.
Proof.
  destruct o; simpl; [apply frames_get_similarity|apply frames_predict_rating].
Qed.

Lemma same_data_run ops c : same_data (run ops c) c.
Proof.
  revert c. induction ops as [|o ops IH]; intros c; simpl.
  - apply same_data_refl.
  - eapply same_data_trans; [apply IH|apply same_data_exec].
Qed.

(** ** What [compute_similarity] returns and writes *)

Lemma filter_all {A} (P : A → Prop) `{!∀ x, Decision (P x)} (l : list A) :
  Forall P l → filter P l = l.
Proof.
  induction 1 as [|x l Hx _ IH]; [done|].
  rewrite filter_cons, decide_True by done. by rewrite IH.
Qed.

Lemma filter_none {A} (P : A → Prop) `{!∀ x, Decision (P x)} (l : list A) :
  Forall (fun x => ¬ P x) l → filter P l = [].
Proof.
  induction 1 as [|x l Hx _ IH]; [done|].
  by rewrite filter_cons, decide_False.
Qed.

Lemma wf_movie c k m :
  wf c → movie_dict c !! k = Some m →
  Movie.id m = k ∧ NoDup (Movie.users m) ∧
  ∀ u, u ∈ Movie.users m → is_Some (rating_of c u k).
Proof.
  intros [Hm _] Hk. destruct (Hm k m Hk) as (Hi & Hn & Hf).
  split_and!; [done..|]. by apply Forall_forall.
Qed.

Lemma rating_of_user c u k : is_Some (rating_of c u k) → is_Some (user_dict c !! u).
Proof.
  unfold rating_of. destruct (user_dict c !! u) as [d|]; simpl; [eauto|].
  by intros [? ?].
Qed.

Lemma raters_lookup c k m : movie_dict c !! k = Some m → raters c k = Movie.users m.
Proof. intros H. unfold raters. by rewrite H. Qed.

Lemma compute_similarity_run c a b ma mb :
  wf c → movie_dict c !! a = Some ma → movie_dict c !! b = Some mb →
  compute_similarity a b c = (Ok (similarity c a b), after_compute c a b).
Proof.
  intros Hwf Ha Hb.
  destruct (wf_movie c a ma Hwf Ha) as (Hid & _ & Hra).
  destruct (wf_movie c b mb Hwf Hb) as (_ & _ & Hrb).
  unfold compute_similarity, after_compute, similarity, mbind, M_bind, read,
    modify. simpl. unfold getitem at 1. rewrite Ha.
  rewrite (common_users_loop_run _ b mb) by done. simpl.
  assert (Hcs : common_raters c a b
                = filter (fun u => u ∈ Movie.users mb) (Movie.users ma)).
  { unfold common_raters. by rewrite (raters_lookup c a ma), (raters_lookup c b mb). }
  rewrite <- Hcs. set (cs := common_raters c a b).
  assert (Hin : ∀ u, u ∈ cs → u ∈ Movie.users ma ∧ u ∈ Movie.users mb).
  { intros u. subst cs. rewrite Hcs, list_elem_of_filter. tauto. }
  rewrite ratings_loop_run.
  2:{ apply Forall_forall. intros u Hu. apply (rating_of_user _ _ a).
      apply Hra, Hin, Hu. }
  simpl. unfold similarity_over.
  destruct (decide (length cs = 0%nat)) as [Hlen|Hlen].
  - apply length_zero_iff_nil in Hlen. by destruct (decide (cs = [])).
  - destruct (decide (cs = [])) as [He|_]; [by rewrite He in Hlen|].
    rewrite Hid.
    rewrite (diff_loop_run (record_call a b c) a b cs []).
    2:{ apply Forall_forall. intros u Hu. split; [apply Hra|apply Hrb]; by apply Hin. }
    done.
Qed.

Lemma compute_similarity_other_absent c a b ma :
  movie_dict c !! a = Some ma → movie_dict c !! b = None →
  compute_similarity a b c
  = (if decide (Movie.users ma = []) then Ok 0%Q else Err KeyError,
     record_call a b c).
Proof.
  intros Ha Hb.
  unfold compute_similarity, mbind, M_bind, read, modify. simpl.
  unfold getitem at 1. rewrite Ha.
  rewrite common_users_loop_absent by done.
  by destruct (Movie.users ma) as [|u us].
Qed.

Lemma compute_similarity_self_absent c a b :
  movie_dict c !! a = None → compute_similarity a b c = (Err KeyError, c).
Proof.
  intros Ha. unfold compute_similarity, mbind, M_bind, read. simpl.
  unfold getitem. by rewrite Ha.
Qed.

Lemma similarity_other_absent c a b :
  movie_dict c !! b = None → similarity c a b = 0%Q.
Proof.
  intros Hb. unfold similarity, common_raters, raters. rewrite Hb. simpl.
  rewrite filter_none; [done|].
  apply Forall_forall. intros u _. apply not_elem_of_nil.
Qed.

(** ** The formula does not depend on the enumeration, and is symmetric *)

Lemma abs_diff_sym c a b u : abs_diff c a b u = abs_diff c b a u.
Proof. unfold abs_diff. apply Qabs_Qminus. Qed.

Lemma similarity_over_perm c a b cs cs' :
  cs ≡ₚ cs' → (similarity_over c a b cs == similarity_over c a b cs')%Q.
Proof.
  intros Hp. unfold similarity_over, mean_abs_diff.
  destruct (decide (cs = [])) as [->|Hne].
  - apply Permutation_nil_l in Hp. subst. reflexivity.
  - rewrite decide_False.
    2:{ intros ->. by apply Permutation_nil_r in Hp. }
    rewrite (Qsum_perm (abs_diff c a b <$> cs) (abs_diff c a b <$> cs')) by (by apply fmap_Permutation).
    by rewrite (Permutation_length Hp).
Qed.

Lemma similarity_enumeration c a b ma mb cs :
  movie_dict c !! a = Some ma → movie_dict c !! b = Some mb →
  NoDup (Movie.users ma) → NoDup cs →
  (∀ u, u ∈ cs ↔ u ∈ Movie.users ma ∧ u ∈ Movie.users mb) →
  (similarity c a b == similarity_over c a b cs)%Q.
Proof.
  intros Ha Hb Hnd Hcs Hiff. apply similarity_over_perm.
  apply NoDup_Permutation; [|done|].
  - unfold common_raters. rewrite (raters_lookup c a ma) by done.
    by apply NoDup_filter.
  - intros u. unfold common_raters.
    rewrite (raters_lookup c a ma), (raters_lookup c b mb) by done.
    rewrite list_elem_of_filter, Hiff. tauto.
Qed.

Lemma similarity_over_swap c a b cs :
  similarity_over c a b cs = similarity_over c b a cs.
Proof.
  unfold similarity_over, mean_abs_diff.
  replace (abs_diff c a b <$> cs) with (abs_diff c b a <$> cs); [done|].
  apply list_fmap_ext. intros _ u _. apply abs_diff_sym.
Qed.

Lemma similarity_sym c a b :
  wf c → is_Some (movie_dict c !! a) → is_Some (movie_dict c !! b) →
  (similarity c a b == similarity c b a)%Q.
Proof.
  intros Hwf [ma Ha] [mb Hb].
  destruct (wf_movie c a ma Hwf Ha) as (_ & Hna & _).
  destruct (wf_movie c b mb Hwf Hb) as (_ & Hnb & _).
  rewrite (similarity_enumeration c a b ma mb (common_raters c b a)); try done.
  - unfold similarity. by rewrite similarity_over_swap.
  - unfold common_raters. rewrite (raters_lookup c b mb) by done.
    by apply NoDup_filter.
  - intros u. unfold common_raters.
    rewrite (raters_lookup c a ma), (raters_lookup c b mb) by done.
    rewrite list_elem_of_filter. tauto.
Qed.

Lemma similarity_self c m mm :
  movie_dict c !! m = Some mm →
  (similarity c m m == if decide (Movie.users mm = []) then 0 else 1)%Q.
Proof.
  intros Hm. unfold similarity, common_raters.
  rewrite (raters_lookup c m mm) by done.
  rewrite filter_all by (by apply Forall_forall).
  unfold similarity_over.
  destruct (decide (Movie.users mm = [])) as [He|Hne]; [reflexivity|].
  unfold mean_abs_diff. rewrite Qsum_all_zero.
  - unfold Qdiv. ring.
  - apply Forall_fmap, Forall_forall. intros u _. simpl.
    unfold abs_diff. setoid_replace (rating c u m - rating c u m)%Q with 0%Q
      using relation Qeq by ring.
    reflexivity.
Qed.

(** ** Cache entries after a write *)

Lemma cached_record_call a b c x y :
  cached (record_call a b c) x y = cached c x y.
Proof. done. Qed.

Lemma cached_store_eq c a b s :
  is_Some (movie_dict c !! a) → cached (store_similarity a b s c) a b = Some s.
Proof.
  intros [ma Ha]. unfold cached. simpl. rewrite lookup_alter_eq, Ha. simpl.
  apply lookup_insert_eq.
Qed.

Lemma cached_store_ne c a b s x y :
  (x, y) ≠ (a, b) → cached (store_similarity a b s c) x y = cached c x y.
Proof.
  intros Hne. unfold cached. simpl.
  destruct (decide (a = x)) as [->|Hax].
  - rewrite lookup_alter_eq. destruct (movie_dict c !! x) as [mx|]; [|done].
    simpl. rewrite lookup_insert_ne; [done|]. congruence.
  - by rewrite lookup_alter_ne.
Qed.

Lemma cached_store_inv c a b s x y t :
  cached (store_similarity a b s c) x y = Some t →
  cached c x y = Some t ∨ (x = a ∧ y = b ∧ t = s ∧ is_Some (movie_dict c !! a)).
Proof.
  destruct (decide ((x, y) = (a, b))) as [[= -> ->]|Hne].
  - destruct (movie_dict c !! a) as [ma|] eqn:Ha.
    + rewrite cached_store_eq by eauto. intros [= ->]. right. eauto.
    + unfold cached. simpl. by rewrite lookup_alter_eq, Ha.
  - rewrite cached_store_ne by done. by left.
Qed.

Lemma cache_valid_same_data c' c :
  same_data c' c → (∀ a b, cached c' a b = cached c a b) →
  cache_valid c → cache_valid c'.
Proof.
  intros Hsd Hc Hv a b s. rewrite Hc, (same_data_similarity c' c _ _ Hsd).
  apply Hv.
Qed.

Lemma cache_valid_record_call a b c :
  cache_valid c → cache_valid (record_call a b c).
Proof.
  apply cache_valid_same_data; [apply same_data_record_call|done].
Qed.

Lemma cache_valid_store c a b s :
  (is_Some (movie_dict c !! a) → (s == similarity c a b)%Q) →
  cache_valid c → cache_valid (store_similarity a b s c).
Proof.
  intros Hs Hv x y t Hc.
  rewrite (same_data_similarity _ c _ _ (same_data_store a b s c)).
  apply cached_store_inv in Hc as [Hc|(-> & -> & -> & Ha)]; [by apply Hv|].
  by apply Hs.
Qed.

Lemma cache_valid_after_compute c a b :
  cache_valid c → cache_valid (after_compute c a b).
Proof.
  intros Hv. unfold after_compute. destruct (decide _).
  - by apply cache_valid_record_call.
  - apply cache_valid_store; [|by apply cache_valid_record_call].
    intros _. by rewrite (same_data_similarity _ c _ _ (same_data_record_call a b c)).
Qed.

Lemma cache_valid_compute_similarity c a b :
  wf c → cache_valid c → cache_valid (compute_similarity a b c).2.
Proof.
  intros Hwf Hv.
  destruct (movie_dict c !! a) as [ma|] eqn:Ha.
  - destruct (movie_dict c !! b) as [mb|] eqn:Hb.
    + rewrite (compute_similarity_run c a b ma mb) by done.
      by apply cache_valid_after_compute.
    + rewrite (compute_similarity_other_absent c a b ma) by done.
      by apply cache_valid_record_call.
  - by rewrite compute_similarity_self_absent.
Qed.

(** ** What [get_similarity] returns and writes *)

Lemma get_similarity_hit c a b ma s :
  movie_dict c !! a = Some ma → Movie.similarities ma !! b = Some s →
  get_similarity a b c = (Ok s, c).
Proof.
  intros Ha Hs. unfold get_similarity, mbind, M_bind, read, try_KeyError.
  unfold getitem at 1. rewrite Ha.
  rewrite decide_True by eauto. unfold getitem. by rewrite Hs.
Qed.

Lemma same_data_after_compute c a b : same_data (after_compute c a b) c.
Proof.
  unfold after_compute. destruct (decide _).
  - apply same_data_record_call.
  - eapply same_data_trans; [apply same_data_store|apply same_data_record_call].
Qed.

Lemma same_data_after_miss c a b : same_data (after_miss c a b) c.
Proof.
  unfold after_miss.
  eapply same_data_trans; [apply same_data_store|].
  eapply same_data_trans; [apply same_data_store|].
  apply same_data_after_compute.
Qed.

Lemma get_similarity_miss c a b ma mb :
  wf c → movie_dict c !! a = Some ma → movie_dict c !! b = Some mb →
  Movie.similarities ma !! b = None →
  get_similarity a b c = (Ok (similarity c a b), after_miss c a b).
Proof.
  intros Hwf Ha Hb Hs.
  destruct (wf_movie c a ma Hwf Ha) as (Hid & _ & _).
  unfold get_similarity, mbind, M_bind, read, try_KeyError.
  unfold getitem at 1. rewrite Ha.
  rewrite decide_False by (rewrite Hs; by intros [? ?]).
  rewrite (compute_similarity_run c a b ma mb) by done.
  simpl.
  assert (Hpres : is_Some (movie_dict
            (store_similarity a b (similarity c a b) (after_compute c a b)) !! b)).
  { eapply same_data_present; [|by eexists].
    eapply same_data_trans; [apply same_data_store|apply same_data_after_compute]. }
  destruct Hpres as [mb' Hb']. unfold getitem. simpl in Hb'. rewrite Hb'.
  by rewrite Hid.
Qed.


Lemma cached_after_miss c a b :
  is_Some (movie_dict c !! a) → is_Some (movie_dict c !! b) →
  cached (after_miss c a b) a b = Some (similarity c a b)
  ∧ cached (after_miss c a b) b a = Some (similarity c a b).
Proof.
  intros Ha Hb. unfold after_miss.
  set (s := similarity c a b). set (c1 := after_compute c a b).
  assert (Ha1 : is_Some (movie_dict c1 !! a)).
  { by apply (same_data_present c1 c); [apply same_data_after_compute|]. }
  assert (Hb2 : is_Some (movie_dict (store_similarity a b s c1) !! b)).
  { apply (same_data_present _ c); [|done].
    eapply same_data_trans; [apply same_data_store|apply same_data_after_compute]. }
  split; [|by apply cached_store_eq].
  destruct (decide ((a, b) = (b, a))) as [[= ->]|Hne].
  - by apply cached_store_eq.
  - rewrite cached_store_ne by done. by apply cached_store_eq.
Qed.

Lemma cache_valid_after_miss c a b :
  wf c → is_Some (movie_dict c !! a) → is_Some (movie_dict c !! b) →
  cache_valid c → cache_valid (after_miss c a b).
Proof.
  intros Hwf Ha Hb Hv. unfold after_miss.
  apply cache_valid_store.
  { intros _.
    rewrite (same_data_similarity _ c _ _
      (same_data_trans _ _ _ (same_data_store _ _ _ _) (same_data_after_compute c a b))).
    by apply similarity_sym. }
  apply cache_valid_store.
  { intros _. by rewrite (same_data_similarity _ c _ _ (same_data_after_compute c a b)). }
  by apply cache_valid_after_compute.
Qed.

Lemma cache_valid_get_similarity c a b :
  wf c → cache_valid c → cache_valid (get_similarity a b c).2.
Proof.
  intros Hwf Hv.
  destruct (movie_dict c !! a) as [ma|] eqn:Ha.
  2:{ unfold get_similarity, mbind, M_bind, read, getitem. by rewrite Ha. }
  destruct (Movie.similarities ma !! b) as [s|] eqn:Hs.
  { by rewrite (get_similarity_hit c a b ma s). }
  destruct (movie_dict c !! b) as [mb|] eqn:Hb.
  { rewrite (get_similarity_miss c a b ma mb) by done.
    apply cache_valid_after_miss; eauto. }
  unfold get_similarity, mbind, M_bind, read, try_KeyError.
  unfold getitem at 1. rewrite Ha.
  rewrite decide_False by (rewrite Hs; by intros [? ?]).
  rewrite (compute_similarity_other_absent c a b ma) by done.
  destruct (decide (Movie.users ma = [])); simpl.
  - unfold getitem. rewrite lookup_alter_ne by congruence. simpl. rewrite Hb. simpl.
    apply cache_valid_store; [|by apply cache_valid_record_call].
    intros _. rewrite (same_data_similarity _ c _ _ (same_data_record_call a b c)).
    by rewrite similarity_other_absent.
  - by apply cache_valid_record_call.
Qed.

(** ** What [predict_rating] returns *)

Lemma wf_user c u d :
  wf c → user_dict c !! u = Some d →
  d ≠ ∅ ∧ ∀ k r, d !! k = Some r →
    ∃ mk, movie_dict c !! k = Some mk ∧ u ∈ Movie.users mk.
Proof.
  intros [_ Hu] Hd. destruct (Hu u d Hd) as [Hne Hall]. split; [done|].
  intros k r Hk. specialize (Hall k r Hk). simpl in Hall. unfold raters in Hall.
  destruct (movie_dict c !! k) as [mk|]; simpl in Hall.
  - eauto.
  - by apply elem_of_nil in Hall.
Qed.

Lemma predict_rating_recorded c u m d r :
  user_dict c !! u = Some d → d !! m = Some r →
  predict_rating u m c = (Ok r, c).
Proof.
  intros Hd Hr. unfold predict_rating, try_KeyError, mbind, M_bind, read.
  unfold getitem at 1. rewrite Hd.
  rewrite decide_True by eauto. unfold getitem. by rewrite Hd, Hr.
Qed.

Lemma predict_rating_unknown_user c u m :
  user_dict c !! u = None → predict_rating u m c = (Err BadInputError, c).
Proof.
  intros Hd. unfold predict_rating, try_KeyError, mbind, M_bind, read, getitem.
  by rewrite Hd.
Qed.

Lemma predict_loop_run c0 u m d krs :
  wf c0 → user_dict c0 !! u = Some d → is_Some (movie_dict c0 !! m) →
  Forall (fun kr => d !! kr.1 = Some kr.2) krs →
  ∀ c p s, same_data c c0 →
  ∃ c', same_data c' c0 ∧
    predict_loop u m krs.*1 p s c
    = (Ok (fold_left Qplus ((fun kr => (kr.2 * similarity c0 kr.1 m)%Q) <$> krs) p,
           fold_left Qplus ((fun kr => similarity c0 kr.1 m) <$> krs) s), c').
Proof.
  intros Hwf Hd [mm Hm] Hall.
  induction Hall as [|[k r] krs Hk _ IH]; intros c p s Hsd; simpl in *.
  - by exists c.
  - assert (Hwfc : wf c) by (by apply (same_data_wf c c0)).
    destruct (wf_user c0 u d Hwf Hd) as [_ Hrated].
    destruct (Hrated k r Hk) as (mk0 & Hmk0 & _).
    assert (Hpk : is_Some (movie_dict c !! k)).
    { apply (same_data_present c c0); eauto. }
    assert (Hpm : is_Some (movie_dict c !! m)).
    { apply (same_data_present c c0); eauto. }
    destruct Hpk as [mk Hmk]. destruct Hpm as [mm' Hm'].
    unfold mbind at 1, M_bind at 1, read at 1.
    destruct Hsd as [Hud Hmd]. unfold getitem at 1. rewrite Hud, Hd.
    unfold mbind at 1, M_bind at 1, read at 1. unfold getitem at 1. rewrite Hk.
    unfold mbind at 1, M_bind at 1.
    rewrite (compute_similarity_run c k m mk mm') by done.
    rewrite (same_data_similarity c c0 k m) by (by split).
    apply IH.
    eapply same_data_trans; [apply same_data_after_compute|by split].
Qed.

Lemma predict_rating_estimate c u m d :
  wf c → user_dict c !! u = Some d → d !! m = None →
  is_Some (movie_dict c !! m) →
  ∃ c', same_data c' c ∧
    predict_rating u m c = (Ok (weighted_average c d m), c').
Proof.
  intros Hwf Hd Hr Hm.
  destruct (predict_loop_run c u m d (map_to_list d) Hwf Hd Hm) with
    (c := c) (p := 0%Q) (s := 0%Q) as (c' & Hsd & Hloop).
  { apply Forall_forall. intros [k r] Hkr. by apply elem_of_map_to_list. }
  { apply same_data_refl. }
  exists c'. split; [done|].
  unfold predict_rating, try_KeyError, mbind at 1, M_bind at 1, read at 1.
  unfold getitem at 1. rewrite Hd.
  rewrite decide_False by (rewrite Hr; by intros [? ?]).
  unfold mbind at 1, M_bind at 1, read at 1. unfold getitem at 1. rewrite Hd.
  unfold mbind at 1, M_bind at 1. rewrite Hloop. simpl.
  unfold weighted_average, weight_sum, weighted_sum, Qsum.
  by destruct (Qeq_bool _ _).
Qed.

Lemma predict_rating_unknown_movie c u m d :
  wf c → user_dict c !! u = Some d → movie_dict c !! m = None →
  ∃ c', predict_rating u m c = (Err BadInputError, c').
Proof.
  intros Hwf Hd Hm.
  destruct (wf_user c u d Hwf Hd) as [Hne Hrated].
  assert (Hr : d !! m = None).
  { destruct (d !! m) as [r|] eqn:Hr; [|done].
    destruct (Hrated m r Hr) as (mk & Hmk & _). congruence. }
  destruct (map_to_list d) as [|[k r] krs] eqn:Hl.
  { by apply map_to_list_empty_iff in Hl. }
  assert (Hk : d !! k = Some r).
  { apply elem_of_map_to_list. rewrite Hl. apply list_elem_of_here. }
  destruct (Hrated k r Hk) as (mk & Hmk & Hin).
  eexists.
  unfold predict_rating, try_KeyError, mbind at 1, M_bind at 1, read at 1.
  unfold getitem at 1. rewrite Hd.
  rewrite decide_False by (rewrite Hr; by intros [? ?]).
  unfold mbind at 1, M_bind at 1, read at 1. unfold getitem at 1. rewrite Hd.
  rewrite Hl. simpl.
  unfold mbind at 1, M_bind at 1. unfold mbind at 1, M_bind at 1, read at 1.
  unfold getitem at 1. rewrite Hd.
  unfold mbind at 1, M_bind at 1, read at 1. unfold getitem at 1. rewrite Hk.
  unfold mbind at 1, M_bind at 1.
  rewrite (compute_similarity_other_absent c k m mk) by done.
  rewrite decide_False; [done|].
  intros He. rewrite He in Hin. by apply elem_of_nil in Hin.
Qed.

Lemma same_data_weighted_average c' c d m :
  same_data c' c → weighted_average c' d m = weighted_average c d m.
Proof.
  intros Hsd. unfold weighted_average, weight_sum, weighted_sum.
  replace ((fun kr : Z * Q => similarity c' kr.1 m) <$> map_to_list d)
    with ((fun kr : Z * Q => similarity c kr.1 m) <$> map_to_list d).
  2:{ apply list_fmap_ext. intros _ kr _. by rewrite (same_data_similarity c' c). }
  replace ((fun kr : Z * Q => (kr.2 * similarity c' kr.1 m)%Q) <$> map_to_list d)
    with ((fun kr : Z * Q => (kr.2 * similarity c kr.1 m)%Q) <$> map_to_list d).
  2:{ apply list_fmap_ext. intros _ kr _. by rewrite (same_data_similarity c' c). }
  done.
Qed.

(** On a well-formed catalog the outcome of [predict_rating] is a function
    of the data alone: the caches play no part in it. *)
Lemma predict_rating_same_data c' c u m :
  wf c → same_data c' c →
  (predict_rating u m c').1 = (predict_rating u m c).1.
Proof.
  intros Hwf Hsd. assert (Hwf' : wf c') by (by apply (same_data_wf c' c)).
  pose proof Hsd as [Hud _].
  destruct (user_dict c !! u) as [d|] eqn:Hd.
  2:{ rewrite !predict_rating_unknown_user; [done..|]. by rewrite Hud. }
  assert (Hd' : user_dict c' !! u = Some d) by (by rewrite Hud).
  destruct (d !! m) as [r|] eqn:Hr.
  { by rewrite (predict_rating_recorded c' u m d r),
      (predict_rating_recorded c u m d r). }
  destruct (movie_dict c !! m) as [mm|] eqn:Hm.
  - destruct (predict_rating_estimate c u m d) as (c1 & _ & ->); eauto.
    destruct (predict_rating_estimate c' u m d) as (c2 & _ & ->); eauto.
    { apply (same_data_present c' c); eauto. }
    simpl. by rewrite (same_data_weighted_average c' c).
  - destruct (predict_rating_unknown_movie c u m d) as (c1 & ->); eauto.
    destruct (predict_rating_unknown_movie c' u m d) as (c2 & ->); eauto.
    destruct (movie_dict c' !! m) eqn:Hm'; [|done].
    assert (is_Some (movie_dict c !! m)) as [? ?]; [|congruence].
    apply (same_data_present c' c); eauto.
Qed.

Lemma cache_valid_predict_loop u m ks :
  ∀ p s c, wf c → cache_valid c → cache_valid (predict_loop u m ks p s c).2.
Proof.
  induction ks as [|k ks IH]; intros p s c Hwf Hv; simpl; [done|].
  unfold mbind at 1, M_bind at 1, read at 1.
  destruct (getitem (user_dict c) u) as [d|e]; [|done].
  unfold mbind at 1, M_bind at 1, read at 1.
  destruct (getitem d k) as [r|e]; [|done].
  unfold mbind at 1, M_bind at 1.
  pose proof (cache_valid_compute_similarity c k m Hwf Hv) as Hv1.
  pose proof (frames_compute_similarity k m c) as Hsd1.
  destruct (compute_similarity k m c) as [[q|e] c1]; simpl in *; [|done].
  apply IH; [by apply (same_data_wf c1 c)|done].
Qed.

Lemma cache_valid_predict_rating c u m :
  wf c → cache_valid c → cache_valid (predict_rating u m c).2.
Proof.
  intros Hwf Hv. unfold predict_rating, try_KeyError, mbind at 1, M_bind at 1, read at 1.
  destruct (getitem (user_dict c) u) as [d|[]] eqn:Hg; try done.
  destruct (decide (is_Some (d !! m))).
  - unfold mbind, M_bind, read. rewrite Hg.
    by destruct (getitem d m) as [?|[]].
  - unfold mbind at 1, M_bind at 1, read at 1. rewrite Hg.
    unfold mbind at 1, M_bind at 1.
    pose proof (cache_valid_predict_loop u m (map_to_list d).*1 0%Q 0%Q c Hwf Hv) as Hv1.
    destruct (predict_loop u m (map_to_list d).*1 0%Q 0%Q c) as [[acc|[]] c1];
      simpl in *; try done.
    by destruct (Qeq_bool acc.2 0).
Qed.

Lemma cache_valid_run ops c :
  wf c → cache_valid c → cache_valid (run ops c).
Proof.
  revert c. induction ops as [|o ops IH]; intros c Hwf Hv; simpl; [done|].
  apply IH.
  - apply (same_data_wf _ c); [apply same_data_exec|done].
  - destruct o; simpl.
    + by apply cache_valid_get_similarity.
    + by apply cache_valid_predict_rating.
Qed.

Lemma loaded_cache_valid c : loaded c → cache_valid c.
Proof.
  intros (_ & _ & Hempty) a b s. unfold cached.
  destruct (movie_dict c !! a) as [ma|] eqn:Ha; simpl; [|done].
  by rewrite (Hempty a ma Ha).
Qed.

Lemma cached_lookup c a b ma :
  movie_dict c !! a = Some ma → cached c a b = Movie.similarities ma !! b.
Proof. intros Ha. unfold cached. by rewrite Ha. Qed.

Lemma get_similarity_cached c a b s :
  cached c a b = Some s → get_similarity a b c = (Ok s, c).
Proof.
  unfold cached. destruct (movie_dict c !! a) as [ma|] eqn:Ha; simpl; [|done].
  by apply get_similarity_hit.
Qed.

Lemma same_data_lookup c' c k m :
  same_data c' c → movie_dict c !! k = Some m →
  ∃ m', movie_dict c' !! k = Some m' ∧ Movie.data m' = Movie.data m.
Proof.
  intros [_ Hm] Hk. specialize (Hm k). rewrite Hk in Hm.
  destruct (movie_dict c' !! k) as [m'|]; simpl in Hm; [|done].
  exists m'. split; [done|]. congruence.
Qed.

Lemma predict_rating_known c u m :
  wf c → known c (u, m, 0%Q) →
  ∃ p c', predict_rating u m c = (Ok p, c') ∧ same_data c' c.
Proof.
  intros Hwf [[d Hd] Hm]. simpl in *.
  destruct (d !! m) as [r|] eqn:Hr.
  - exists r, c. split; [by apply (predict_rating_recorded c u m d)|].
    apply same_data_refl.
  - destruct (predict_rating_estimate c u m d) as (c' & Hsd & Hp); eauto.
Qed.

Lemma predict_rating_not_known c u m :
  wf c → ¬ known c (u, m, 0%Q) →
  ∃ c', predict_rating u m c = (Err BadInputError, c').
Proof.
  intros Hwf Hn. unfold known in Hn. simpl in Hn.
  destruct (user_dict c !! u) as [d|] eqn:Hd.
  - destruct (movie_dict c !! m) as [mm|] eqn:Hm.
    + destruct Hn; eauto.
    + by apply (predict_rating_unknown_movie c u m d).
  - exists c. by apply predict_rating_unknown_user.
Qed.

Lemma known_same_data c' c r : same_data c' c → known c r → known c' r.
Proof.
  intros Hsd [Hu Hm]. split.
  - destruct Hsd as [-> _]. done.
  - by apply (same_data_present c' c).
Qed.

Lemma predict_ratings_loop_ok c0 rows :
  wf c0 → Forall (known c0) rows →
  ∀ c acc, same_data c c0 →
  ∃ out c', same_data c' c0 ∧
    predict_ratings_loop rows acc c = (Ok (acc ++ out), c') ∧
    Forall2 (emitted c0) rows out.
Proof.
  intros Hwf Hall. induction Hall as [|[[u m] actual] rows Hk _ IH];
    intros c acc Hsd; simpl.
  - exists [], c. rewrite app_nil_r. split; [done|]. split; [done|constructor].
  - assert (Hwfc : wf c) by (by apply (same_data_wf c c0)).
    destruct (predict_rating_known c u m Hwfc) as (p & c1 & Hp & Hsd1).
    { apply (known_same_data c c0); [done|]. exact Hk. }
    assert (Hsd10 : same_data c1 c0) by (by eapply same_data_trans).
    destruct Hk as [_ [mv Hmv]]. simpl in Hmv.
    destruct (same_data_lookup c1 c0 m mv Hsd10 Hmv) as (mv1 & Hmv1 & Hdata).
    destruct (IH c1 (acc ++ [(u, Movie.title mv1, p, actual)]) Hsd10)
      as (out & c' & Hsd' & Hloop & Hout).
    exists ((u, Movie.title mv1, p, actual) :: out), c'.
    split; [done|]. split.
    + unfold mbind at 1, M_bind at 1. rewrite Hp.
      unfold mbind at 1, M_bind at 1, read at 1, getitem. rewrite Hmv1.
      rewrite Hloop. by rewrite <- app_assoc.
    + constructor; [|done]. exists mv, p. simpl. split_and!; [done| |].
      * rewrite <- (predict_rating_same_data c c0) by done. by rewrite Hp.
      * injection Hdata as _ Ht _. by rewrite Ht.
Qed.

Lemma predict_ratings_loop_fail c0 pre r post :
  wf c0 → Forall (known c0) pre → ¬ known c0 r →
  ∀ c acc, same_data c c0 →
  ∃ c', predict_ratings_loop (pre ++ r :: post) acc c = (Err BadInputError, c').
Proof.
  intros Hwf Hall Hr. induction Hall as [|[[u m] actual] pre Hk _ IH];
    intros c acc Hsd; simpl.
  - destruct r as [[u m] actual].
    assert (Hwfc : wf c) by (by apply (same_data_wf c c0)).
    destruct (predict_rating_not_known c u m Hwfc) as (c' & Hp).
    { intros Hkc. apply Hr. apply (known_same_data c0 c) in Hkc; [exact Hkc|].
      destruct Hsd as [Hu Hm]. by split. }
    exists c'. unfold mbind, M_bind. by rewrite Hp.
  - assert (Hwfc : wf c) by (by apply (same_data_wf c c0)).
    destruct (predict_rating_known c u m Hwfc) as (p & c1 & Hp & Hsd1).
    { apply (known_same_data c c0); [done|]. exact Hk. }
    assert (Hsd10 : same_data c1 c0) by (by eapply same_data_trans).
    destruct Hk as [_ [mv Hmv]]. simpl in Hmv.
    destruct (same_data_lookup c1 c0 m mv Hsd10 Hmv) as (mv1 & Hmv1 & Hdata).
    destruct (IH c1 (acc ++ [(u, Movie.title mv1, p, actual)]) Hsd10) as (c' & Hloop).
    exists c'. unfold mbind at 1, M_bind at 1. rewrite Hp.
    unfold mbind at 1, M_bind at 1, read at 1, getitem. by rewrite Hmv1.
Qed.


(** ** The load path establishes the integrity of the catalog *)

Lemma load_movies_fresh movies :
  map_Forall (fun k m => Movie.id m = k ∧ Movie.users m = [] ∧
                         Movie.similarities m = ∅) (load_movies movies).
Proof.
  unfold load_movies.
  assert (H : ∀ d : gmap Z Movie.t,
    map_Forall (fun k m => Movie.id m = k ∧ Movie.users m = [] ∧
                           Movie.similarities m = ∅) d →
    map_Forall (fun k m => Movie.id m = k ∧ Movie.users m = [] ∧
                           Movie.similarities m = ∅)
      (foldl (fun d line => <[line.1 := Movie.Make line.1 line.2 [] ∅]> d) d movies)).
  { induction movies as [|line movies IH]; intros d Hd; simpl; [done|].
    apply IH. by apply map_Forall_insert_2. }
  apply H, map_Forall_empty.
Qed.

Lemma wf_before_ratings movies : loaded (MkState (load_movies movies) ∅ []).
Proof.
  pose proof (load_movies_fresh movies) as Hf. split; [split|split; [done|]].
  - intros k m Hk. destruct (Hf k m Hk) as (Hid & Hus & _). simpl.
    rewrite Hus. split_and!; [done|constructor|constructor].
  - apply map_Forall_empty.
  - intros k m Hk. by destruct (Hf k m Hk) as (_ & _ & ?).
Qed.

Lemma wf_rated c u d k r :
  wf c → user_dict c !! u = Some d → d !! k = Some r → u ∈ raters c k.
Proof.
  intros [_ Hu] Hd Hk. destruct (Hu u d Hd) as [_ Hall]. exact (Hall k r Hk).
Qed.

Lemma load_rating_run c u k r mk :
  movie_dict c !! k = Some mk →
  load_rating (u, k, r) c = (Ok tt, with_rating c u k r).
Proof.
  intros Hk. unfold with_rating, load_rating, mbind, M_bind, read, modify, getitem.
  by rewrite Hk.
Qed.

Lemma load_rating_absent c u k r :
  movie_dict c !! k = None → load_rating (u, k, r) c = (Err KeyError, c).
Proof.
  intros Hk. unfold load_rating, mbind, M_bind, read, getitem. by rewrite Hk.
Qed.

Section one_line.
Context (c : State) (u k : Z) (r : Q) (mk : Movie.t).
Hypothesis Hk : movie_dict c !! k = Some mk.

Lemma movie_dict_with_rating :
  movie_dict (with_rating c u k r)
  = alter (fun m => Movie.Make (Movie.id m) (Movie.title m)
                      (Movie.users m ++ [u]) (Movie.similarities m))
          k (movie_dict c).
Proof.
  unfold with_rating, load_rating, mbind, M_bind, read, modify, getitem.
  by rewrite Hk.
Qed.

Lemma user_dict_with_rating :
  user_dict (with_rating c u k r)
  = <[u := <[k := r]> (default ∅ (user_dict c !! u))]> (user_dict c).
Proof.
  unfold with_rating, load_rating, mbind, M_bind, read, modify, getitem.
  rewrite Hk. simpl. destruct (user_dict c !! u); [done|].
  simpl. by rewrite insert_empty.
Qed.

Lemma raters_with_rating k' :
  raters (with_rating c u k r) k'
  = if decide (k' = k) then raters c k ++ [u] else raters c k'.
Proof.
  unfold raters. rewrite movie_dict_with_rating.
  destruct (decide (k' = k)) as [->|Hne].
  - rewrite lookup_alter_eq, Hk. done.
  - by rewrite lookup_alter_ne.
Qed.

Lemma rating_of_with_rating u' k' :
  rating_of (with_rating c u k r) u' k'
  = if decide (u' = u ∧ k' = k) then Some r else rating_of c u' k'.
Proof.
  unfold rating_of. rewrite user_dict_with_rating.
  destruct (decide (u' = u)) as [->|Hu].
  - rewrite lookup_insert_eq. simpl.
    destruct (decide (k' = k)) as [->|Hkk].
    + rewrite decide_True by done. apply lookup_insert_eq.
    + rewrite decide_False by tauto. rewrite lookup_insert_ne by done.
      destruct (user_dict c !! u); [done|]. simpl. apply lookup_empty.
  - rewrite lookup_insert_ne by done. by rewrite decide_False by tauto.
Qed.

Lemma wf_with_rating : wf c → rating_of c u k = None → wf (with_rating c u k r).
Proof.
  intros Hwf Hnew. split.
  - intros k' m' Hk'. rewrite movie_dict_with_rating in Hk'.
    destruct (decide (k' = k)) as [->|Hne].
    + rewrite lookup_alter_eq, Hk in Hk'. simpl in Hk'. injection Hk' as <-.
      destruct (wf_movie c k mk Hwf Hk) as (Hid & Hnd & Hr). simpl.
      split_and!; [done| |].
      * apply NoDup_app. split_and!; [done| |apply NoDup_singleton].
        intros x Hx ->%list_elem_of_singleton.
        destruct (Hr u Hx) as [? ?]. congruence.
      * apply Forall_app. split.
        -- apply Forall_forall. intros x Hx. rewrite rating_of_with_rating.
           destruct (decide _); [by eexists|by apply Hr].
        -- constructor; [|constructor]. rewrite rating_of_with_rating.
           rewrite decide_True by done. by eexists.
    + rewrite lookup_alter_ne in Hk' by done.
      destruct (wf_movie c k' m' Hwf Hk') as (Hid & Hnd & Hr).
      split_and!; [done..|]. apply Forall_forall. intros x Hx.
      rewrite rating_of_with_rating. rewrite decide_False by tauto.
      by apply Hr.
  - intros u' d' Hd'. rewrite user_dict_with_rating in Hd'.
    assert (Hgrow : ∀ x k'', x ∈ raters c k'' → x ∈ raters (with_rating c u k r) k'').
    { intros x k'' Hx. rewrite raters_with_rating.
      destruct (decide (k'' = k)) as [->|_]; [|done].
      apply elem_of_app. by left. }
    destruct (decide (u' = u)) as [->|Hu].
    + rewrite lookup_insert_eq in Hd'. injection Hd' as <-. split.
      * apply insert_non_empty.
      * intros k'' r'' Hk''. simpl.
        destruct (decide (k'' = k)) as [->|Hne].
        -- rewrite raters_with_rating, decide_True by done.
           apply elem_of_app. right. apply list_elem_of_singleton. done.
        -- rewrite lookup_insert_ne in Hk'' by done.
           destruct (user_dict c !! u) as [d|] eqn:Hd; simpl in Hk''.
           ++ apply Hgrow. by apply (wf_rated c u d k'' r'').
           ++ by rewrite lookup_empty in Hk''.
    + rewrite lookup_insert_ne in Hd' by done.
      split; [by destruct (wf_user c u' d' Hwf Hd')|].
      intros k'' r'' Hk''. apply Hgrow. by apply (wf_rated c u' d' k'' r'').
Qed.

Lemma similarities_with_rating k' :
  Movie.similarities <$> movie_dict (with_rating c u k r) !! k'
  = Movie.similarities <$> movie_dict c !! k'.
Proof.
  rewrite movie_dict_with_rating.
  destruct (decide (k' = k)) as [->|Hne].
  - rewrite lookup_alter_eq. by destruct (movie_dict c !! k).
  - by rewrite lookup_alter_ne.
Qed.

Lemma loaded_with_rating : loaded c → rating_of c u k = None → loaded (with_rating c u k r).
Proof.
  intros (Hwf & Hcomp & Hempty) Hnew. split; [by apply wf_with_rating|].
  split.
  - unfold with_rating, load_rating, mbind, M_bind, read, modify, getitem.
    by rewrite Hk.
  - intros k' m' Hk'. pose proof (similarities_with_rating k') as Hs.
    rewrite Hk' in Hs. simpl in Hs.
    destruct (movie_dict c !! k') as [m|] eqn:Hm; [|done].
    simpl in Hs. injection Hs as ->. by apply (Hempty k' m).
Qed.
End one_line.

Lemma load_ratings_loaded lines :
  NoDup lines.*1 →
  ∀ c c', loaded c →
    Forall (fun line => rating_of c line.1.1 line.1.2 = None) lines →
    load_ratings lines c = (Ok tt, c') → loaded c'.
Proof.
  induction lines as [|[[u k] r] lines IH]; intros Hnd c c' Hl Hnew Hrun.
  - by injection Hrun as <-.
  - rewrite fmap_cons in Hnd. apply NoDup_cons in Hnd as [Hfresh Hnd].
    apply Forall_cons in Hnew as [Hnew1 Hnew]. simpl in Hnew1.
    cbn [load_ratings] in Hrun. unfold mbind, M_bind in Hrun.
    destruct (movie_dict c !! k) as [mk|] eqn:Hk.
    2:{ by rewrite load_rating_absent in Hrun. }
    rewrite (load_rating_run c u k r mk Hk) in Hrun.
    apply (IH Hnd (with_rating c u k r) c');
      [by apply (loaded_with_rating c u k r mk)| |done].
    apply Forall_forall. intros [[u' k'] r'] Hin. simpl.
    rewrite (rating_of_with_rating c u k r mk Hk).
    rewrite decide_False.
    + by apply (proj1 (Forall_forall _ _) Hnew (u', k', r')).
    + intros [-> ->]. apply Hfresh.
      apply list_elem_of_fmap. by exists (u, k, r').
Qed.

(** What [__init__] builds from a training file that rates no (user, movie)
    pair twice is a loaded catalog. *)
Lemma init_loaded movies ratings c :
  NoDup ratings.*1 → init movies ratings = (Ok tt, c) → loaded c.
Proof.
  intros Hnd Hrun.
  apply (load_ratings_loaded ratings Hnd _ c (wf_before_ratings movies));
    [|exact Hrun].
  apply Forall_forall. by intros [[u k] r] _.
Qed.

Lemma demo_loaded : loaded demo.
Proof.
  apply (init_loaded [(1, "A"); (2, "B")]
           [(10, 1, 4%Q); (10, 2, 5%Q); (11, 1, 2%Q); (11, 2, 2%Q); (12, 1, 3%Q)]).
  - apply (bool_decide_unpack _). by vm_compute.
  - by vm_compute.
Qed.

Lemma demo_wf : wf demo.
Proof. apply demo_loaded. Qed.

(** ** The caches under [get_similarity] alone *)

Lemma cached_after_compute_ne c a b x y :
  (x, y) ≠ (a, b) → cached (after_compute c a b) x y = cached c x y.
Proof.
  intros Hne. unfold after_compute. destruct (decide _); [done|].
  by rewrite cached_store_ne.
Qed.

Lemma cached_after_miss_ne c a b x y :
  (x, y) ≠ (a, b) → (x, y) ≠ (b, a) →
  cached (after_miss c a b) x y = cached c x y.
Proof.
  intros H1 H2. unfold after_miss.
  rewrite !cached_store_ne by done. by apply cached_after_compute_ne.
Qed.

(** [get_similarity] on its own keeps the caches symmetric: it is the
    path through [compute_similarity] that does not. *)
Lemma get_similarity_keeps_symmetry c x y :
  wf c → cache_symmetric c → cache_symmetric (get_similarity x y c).2.
Proof.
  intros Hwf Hsym.
  destruct (movie_dict c !! x) as [mx|] eqn:Hx.
  2:{ unfold get_similarity, mbind, M_bind, read, getitem. by rewrite Hx. }
  destruct (Movie.similarities mx !! y) as [s|] eqn:Hs.
  { by rewrite (get_similarity_hit c x y mx s). }
  destruct (movie_dict c !! y) as [my|] eqn:Hy.
  - rewrite (get_similarity_miss c x y mx my) by done. simpl.
    intros a b Ha Hb.
    apply (same_data_present _ c) in Ha; [|apply same_data_after_miss].
    apply (same_data_present _ c) in Hb; [|apply same_data_after_miss].
    destruct (cached_after_miss c x y) as [Hxy Hyx]; [eauto..|].
    destruct (decide ((a, b) = (x, y))) as [[= -> ->]|N1]; [congruence|].
    destruct (decide ((a, b) = (y, x))) as [[= -> ->]|N2]; [congruence|].
    rewrite !cached_after_miss_ne by congruence. by apply Hsym.
  - assert (Hpost : ∃ c', (get_similarity x y c).2 = c' ∧ same_data c' c ∧
        ∀ a b, (a, b) ≠ (x, y) → cached c' a b = cached c a b).
    { unfold get_similarity, mbind, M_bind, read, try_KeyError.
      unfold getitem at 1. rewrite Hx.
      rewrite decide_False by (rewrite Hs; by intros [? ?]).
      rewrite (compute_similarity_other_absent c x y mx) by done.
      destruct (decide (Movie.users mx = [])); simpl.
      - unfold getitem. rewrite lookup_alter_ne by congruence. simpl.
        rewrite Hy. simpl. eexists. split; [done|]. split.
        + eapply same_data_trans; [apply same_data_store|apply same_data_record_call].
        + intros a b Hne. by rewrite cached_store_ne.
      - eexists. split; [done|]. split; [apply same_data_record_call|done]. }
    destruct Hpost as (c' & -> & Hsd & Hc). intros a b Ha Hb.
    apply (same_data_present _ c) in Ha; [|done].
    apply (same_data_present _ c) in Hb; [|done].
    rewrite !Hc; [by apply Hsym| |].
    + intros [= -> ->]. rewrite Hy in Ha. by destruct Ha.
    + intros [= -> ->]. rewrite Hy in Hb. by destruct Hb.
Qed.

(** * The properties of the specification, C1 to C10 *)






(** C3.  When the user has a recorded rating [r] for the movie,
    [predict_rating] returns [r] itself and leaves the whole state as it
    was: nothing is cached and no similarity is computed. *)
Theorem predict_rating_exact_recall c u m d r :
  user_dict c !! u = Some d → d !! m = Some r →
  predict_rating u m c = (Ok r, c).
Proof. apply predict_rating_recorded. Qed.

Lemma predict_rating_exact_recall_witness :
  predict_rating 10 2 demo = (Ok 5%Q, demo).
Proof.
  apply (predict_rating_exact_recall demo 10 2 {[1 := 4%Q; 2 := 5%Q]} 5%Q).
  - by vm_compute.
  - by vm_compute.
Defined.

(** C4.  On a well-formed catalog [predict_rating] raises [BadInputError]
    exactly when the user id or the movie id is unknown; the exception is
    the result of the call. *)
Theorem predict_rating_BadInput_iff c u m :
  wf c →
  (∃ c', predict_rating u m c = (Err BadInputError, c'))
  ↔ (user_dict c !! u = None ∨ movie_dict c !! m = None).
Proof.
  intros Hwf. split.
  - intros (c' & Hp).
    destruct (user_dict c !! u) as [d|] eqn:Hd; [|by left].
    destruct (movie_dict c !! m) as [mm|] eqn:Hm; [|by right].
    destruct (predict_rating_known c u m Hwf) as (p & c1 & Hp1 & _).
    { split; simpl; eauto. }
    congruence.
  - intros H. apply predict_rating_not_known; [done|].
    intros [[d Hd] [mm Hm]]. simpl in *. destruct H; congruence.
Qed.

Lemma predict_rating_BadInput_iff_witness :
  (∃ c', predict_rating 12 3 demo = (Err BadInputError, c'))
  ↔ (user_dict demo !! 12 = None ∨ movie_dict demo !! 3 = None).
Proof.
  apply (predict_rating_BadInput_iff demo 12 3).
  apply (bool_decide_unpack _). by vm_compute.
Defined.

(** C5 (the code at the failing input).  On the loaded demo catalog, one
    call [predict_rating(12, 2)] files the similarity in the cache of
    movie 1 under key 2 and leaves the cache of movie 2 without key 1. *)
Theorem predict_rating_one_sided_cache :
  loaded demo ∧
  (∃ s, cached (run [PredictRating 12 2] demo) 1 2 = Some s ∧ (s == 8 # 9)%Q) ∧
  cached (run [PredictRating 12 2] demo) 2 1 = None.
Proof.
  split; [apply demo_loaded|]. split; [|by vm_compute].
  exists (80 # 90)%Q. by vm_compute.
Qed.

(** C6 (the code at the failing input).  Two calls [predict_rating(12, 2)]
    on the loaded demo catalog run the co-rater computation for the pair
    (1, 2) twice. *)
Theorem predict_rating_recomputes_pair :
  computed demo = [] ∧
  computed (run [PredictRating 12 2; PredictRating 12 2] demo)
  = [(1, 2); (1, 2)].
Proof. by vm_compute. Qed.

Lemma loaded_cache_symmetric c : loaded c → cache_symmetric c.
Proof.
  intros (_ & _ & Hempty) a b [ma Ha] [mb Hb].
  rewrite (cached_lookup c a b ma), (cached_lookup c b a mb) by done.
  by rewrite (Hempty a ma Ha), (Hempty b mb Hb).
Qed.



(** C8.  On a well-formed catalog: when every row names a known user and a
    known movie, [predict_ratings] returns one tuple per row, in the order
    of the rows, each made of the row's user id, the title of its movie,
    what [predict_rating] returns for the pair and the row's actual rating;
    when some row names an unknown user or movie, the first such row makes
    the whole call raise [BadInputError], and no tuple is returned. *)
Theorem predict_ratings_batch c rows :
  wf c →
  (Forall (known c) rows →
     ∃ out c', predict_ratings rows c = (Ok out, c') ∧
               Forall2 (emitted c) rows out)
  ∧ (∀ pre r post, rows = pre ++ r :: post →
       Forall (known c) pre → ¬ known c r →
       ∃ c', predict_ratings rows c = (Err BadInputError, c')).
Proof.
  intros Hwf. split.
  - intros Hall.
    destruct (predict_ratings_loop_ok c rows Hwf Hall c [] (same_data_refl c))
      as (out & c' & _ & Hrun & Hout).
    by exists out, c'.
  - intros pre r post -> Hpre Hr.
    apply (predict_ratings_loop_fail c pre r post Hwf Hpre Hr c []).
    apply same_data_refl.
Qed.

Lemma predict_ratings_batch_witness :
  (∃ out c', predict_ratings [(12, 2, 1%Q); (10, 1, 2%Q)] demo = (Ok out, c') ∧
       Forall2 (emitted demo) [(12, 2, 1%Q); (10, 1, 2%Q)] out)
  ∧ (∃ c', predict_ratings [(12, 2, 1%Q); (13, 1, 2%Q); (10, 1, 2%Q)] demo
           = (Err BadInputError, c')).
Proof.
  assert (Hwf : wf demo) by (apply (bool_decide_unpack _); by vm_compute).
  split.
  - apply (predict_ratings_batch demo [(12, 2, 1%Q); (10, 1, 2%Q)] Hwf).
    repeat constructor; by vm_compute; eexists.
  - apply (proj2 (predict_ratings_batch demo
               [(12, 2, 1%Q); (13, 1, 2%Q); (10, 1, 2%Q)] Hwf)
             [(12, 2, 1%Q)] (13, 1, 2%Q) [(10, 1, 2%Q)]).
    + reflexivity.
    + repeat constructor; by vm_compute; eexists.
    + intros [[d Hd] _]. vm_compute in Hd. discriminate Hd.
Defined.

(** C9.  Whatever the state and the arguments, and whether they return or
    raise, [predict_rating] and [get_similarity] (and [compute_similarity]
    under them) leave [user_dict] and the id, title and user list of every
    movie as they were; only the similarity caches (and the trace) can
    differ afterwards. *)
Theorem engine_frame c :
  (∀ u m, same_data (predict_rating u m c).2 c)
  ∧ (∀ a b, same_data (get_similarity a b c).2 c)
  ∧ (∀ a b, same_data (compute_similarity a b c).2 c).
Proof.
  split_and!; intros x y;
    [apply frames_predict_rating|apply frames_get_similarity
    |apply frames_compute_similarity].
Qed.

(** C10.  In every state reached from a loaded catalog by engine
    operations, asking for the similarity of a movie of the catalog with
    itself succeeds, with 1 when the movie has a rater and 0 when it has
    none. *)
Theorem get_similarity_self c0 m ops :
  loaded c0 → is_Some (movie_dict c0 !! m) →
  ∃ s c', get_similarity m m (run ops c0) = (Ok s, c') ∧
          (s == if decide (raters c0 m = []) then 0 else 1)%Q.
Proof.
  intros Hl [mm0 Hm0]. set (c := run ops c0).
  assert (Hsd : same_data c c0) by apply same_data_run.
  assert (Hwf : wf c) by (apply (same_data_wf c c0); [done|apply Hl]).
  assert (Hv : cache_valid c).
  { apply cache_valid_run; [apply Hl|by apply loaded_cache_valid]. }
  destruct (same_data_lookup c c0 m mm0 Hsd Hm0) as (mm & Hm & Hdata).
  assert (Hself : (similarity c m m == if decide (raters c0 m = []) then 0 else 1)%Q).
  { rewrite (similarity_self c m mm Hm).
    rewrite <- (same_data_raters c c0 m Hsd), (raters_lookup c m mm Hm).
    reflexivity. }
  destruct (Movie.similarities mm !! m) as [s|] eqn:Hs.
  - exists s, c. split; [by apply (get_similarity_hit c m m mm)|].
    rewrite <- Hself. apply Hv. by rewrite (cached_lookup c m m mm).
  - exists (similarity c m m), (after_miss c m m).
    split; [by apply (get_similarity_miss c m m mm mm)|done].
Qed.

Lemma get_similarity_self_witness :
  (∃ s c', get_similarity 1 1
             (run [PredictRating 12 2; GetSimilarity 1 2; GetSimilarity 1 1]
                  demo) = (Ok s, c') ∧
           (s == if decide (raters demo 1 = []) then 0 else 1)%Q)
  ∧ (∃ s c', get_similarity 2 2 (run [] sparse) = (Ok s, c') ∧
             (s == if decide (raters sparse 2 = []) then 0 else 1)%Q).
Proof.
  split.
  - apply (get_similarity_self demo 1).
    + apply (bool_decide_unpack _). by vm_compute.
    + by vm_compute; eexists.
  - apply (get_similarity_self sparse 2).
    + apply (bool_decide_unpack _). by vm_compute.
    + by vm_compute; eexists.
Defined.

(** * Further properties of the code *)

(** ** The loader, [__init__] *)

Lemma load_movies_app movies1 movies2 :
  load_movies (movies1 ++ movies2)
  = foldl (fun d line => <[line.1 := Movie.Make line.1 line.2 [] ∅]> d)
          (load_movies movies1) movies2.
Proof. unfold load_movies. apply foldl_app. Qed.

Lemma foldl_insert_notin (movies : list (Z * string)) (d : gmap Z Movie.t) k :
  k ∉ movies.*1 →
  foldl (fun d line => <[line.1 := Movie.Make line.1 line.2 [] ∅]> d) d movies !! k
  = d !! k.
Proof.
  revert d. induction movies as [|[k' t'] movies IH]; intros d Hk; [done|].
  rewrite fmap_cons, not_elem_of_cons in Hk. destruct Hk as [Hne Hk].
  simpl. rewrite IH by done. by rewrite lookup_insert_ne.
Qed.

Lemma load_movies_notin movies k :
  k ∉ movies.*1 → load_movies movies !! k = None.
Proof. intros Hk. unfold load_movies. by rewrite foldl_insert_notin. Qed.

Lemma load_movies_last pre k t post :
  k ∉ post.*1 →
  load_movies (pre ++ (k, t) :: post) !! k = Some (Movie.Make k t [] ∅).
Proof.
  intros Hk. rewrite load_movies_app. simpl.
  rewrite foldl_insert_notin by done. apply lookup_insert_eq.
Qed.

(** X1.  The movie file decides the keys of the catalog: an id that is not
    in it is not a key, and an id that is in it is stored with the title of
    its last line, under that id, with no users and an empty cache. *)
Theorem load_movies_lookup movies k :
  (k ∉ movies.*1 → load_movies movies !! k = None)
  ∧ (∀ pre t post, movies = pre ++ (k, t) :: post → k ∉ post.*1 →
       load_movies movies !! k = Some (Movie.Make k t [] ∅)).
Proof.
  split; [apply load_movies_notin|].
  intros pre t post -> Hk. by apply load_movies_last.
Qed.

Lemma load_movies_lookup_witness :
  load_movies [(1, "A"); (2, "B"); (1, "C")] !! 3 = None
  ∧ load_movies [(1, "A"); (2, "B"); (1, "C")] !! 1
    = Some (Movie.Make 1 "C" [] ∅).
Proof.
  destruct (load_movies_lookup [(1, "A"); (2, "B"); (1, "C")] 3) as [H3 _].
  destruct (load_movies_lookup [(1, "A"); (2, "B"); (1, "C")] 1) as [_ H1].
  split.
  - apply H3. apply (bool_decide_unpack _). by vm_compute.
  - apply (H1 [(1, "A"); (2, "B")] "C" []); [done|]. apply not_elem_of_nil.
Defined.

Lemma load_movies_is_Some movies k :
  is_Some (load_movies movies !! k) ↔ k ∈ movies.*1.
Proof.
  split.
  - intros Hs. destruct (decide (k ∈ movies.*1)) as [|Hn]; [done|].
    apply (load_movies_notin movies k) in Hn. rewrite Hn in Hs. by destruct Hs.
  - intros Hin. induction movies as [|[k' t'] movies IH] using rev_ind.
    + by apply elem_of_nil in Hin.
    + rewrite load_movies_app. simpl.
      destruct (decide (k = k')) as [->|Hne].
      * rewrite lookup_insert_eq. by eexists.
      * rewrite lookup_insert_ne by done. apply IH.
        rewrite fmap_app, elem_of_app in Hin. destruct Hin as [|Hin]; [done|].
        simpl in Hin. apply list_elem_of_singleton in Hin. done.
Qed.

Lemma present_with_rating c u k r k' :
  is_Some (movie_dict (with_rating c u k r) !! k') ↔ is_Some (movie_dict c !! k').
Proof.
  unfold with_rating, load_rating, mbind, M_bind, read, modify, getitem.
  destruct (movie_dict c !! k) as [mk|] eqn:Hk; simpl; [|done].
  destruct (decide (k = k')) as [->|Hne].
  - rewrite lookup_alter_eq, Hk. simpl. split; eauto.
  - by rewrite lookup_alter_ne.
Qed.

Lemma load_ratings_result lines :
  ∀ c, (load_ratings lines c).1
       = if decide (Forall (fun l => is_Some (movie_dict c !! l.1.2)) lines)
         then Ok tt else Err KeyError.
Proof.
  induction lines as [|[[u k] r] lines IH]; intros c.
  - destruct (decide _) as [|H]; [done|]. by destruct H.
  - cbn [load_ratings]. unfold mbind, M_bind.
    destruct (movie_dict c !! k) as [mk|] eqn:Hk.
    + rewrite (load_rating_run c u k r mk Hk). rewrite IH.
      destruct (decide (Forall _ lines)) as [Hall|Hall].
      * rewrite decide_True; [done|]. constructor; [simpl; eauto|].
        eapply Forall_impl; [exact Hall|]. intros l. apply present_with_rating.
      * rewrite decide_False; [done|]. intros Hc. apply Hall.
        apply Forall_cons in Hc as [_ Hc].
        eapply Forall_impl; [exact Hc|]. intros l. apply present_with_rating.
    + rewrite load_rating_absent by done. simpl.
      rewrite decide_False; [done|]. intros Hc.
      apply Forall_cons in Hc as [[? Hc] _]. simpl in Hc. congruence.
Qed.

(** X2.  [__init__] completes exactly when every line of the training file
    names a movie id of the movie file; otherwise it stops with a plain
    [KeyError] (line 41 is outside any [try]). *)
Theorem init_result movies ratings :
  (init movies ratings).1
  = if decide (Forall (fun l => l.1.2 ∈ movies.*1) ratings)
    then Ok tt else Err KeyError.
Proof.
  unfold init. rewrite load_ratings_result. simpl.
  destruct (decide (Forall (fun l => l.1.2 ∈ movies.*1) ratings)) as [H|H].
  - rewrite decide_True; [done|].
    eapply Forall_impl; [exact H|]. intros l. apply load_movies_is_Some.
  - rewrite decide_False; [done|]. intros Hc. apply H.
    eapply Forall_impl; [exact Hc|]. intros l. apply load_movies_is_Some.
Qed.

Lemma load_ratings_present lines c :
  (load_ratings lines c).1 = Ok tt →
  Forall (fun l => is_Some (movie_dict c !! l.1.2)) lines.
Proof.
  rewrite load_ratings_result. by destruct (decide _).
Qed.

Lemma load_ratings_cons u k r lines c mk :
  movie_dict c !! k = Some mk →
  load_ratings ((u, k, r) :: lines) c = load_ratings lines (with_rating c u k r).
Proof.
  intros Hk. cbn [load_ratings]. unfold mbind, M_bind.
  by rewrite (load_rating_run c u k r mk Hk).
Qed.

Lemma load_ratings_raters k lines :
  ∀ c, Forall (fun l => is_Some (movie_dict c !! l.1.2)) lines →
  raters (load_ratings lines c).2 k
  = raters c k ++ (filter (fun l => l.1.2 = k) lines).*1.*1.
Proof.
  induction lines as [|[[u k0] r] lines IH]; intros c Hall.
  - by rewrite app_nil_r.
  - apply Forall_cons in Hall as [[mk Hk] Hall]. simpl in Hk.
    rewrite (load_ratings_cons u k0 r lines c mk Hk). rewrite IH.
    2:{ eapply Forall_impl; [exact Hall|]. intros l. apply present_with_rating. }
    rewrite (raters_with_rating c u k0 r mk Hk). rewrite filter_cons. simpl.
    destruct (decide (k = k0)) as [->|Hne].
    + rewrite decide_True by done. by rewrite <- app_assoc.
    + by rewrite decide_False by congruence.
Qed.

Lemma load_ratings_rating_of_notin u k lines :
  ∀ c, Forall (fun l => is_Some (movie_dict c !! l.1.2)) lines →
  (u, k) ∉ lines.*1 →
  rating_of (load_ratings lines c).2 u k = rating_of c u k.
Proof.
  induction lines as [|[[u0 k0] r] lines IH]; intros c Hall Hnotin; [done|].
  apply Forall_cons in Hall as [[mk Hk] Hall]. simpl in Hk.
  rewrite fmap_cons, not_elem_of_cons in Hnotin. destruct Hnotin as [Hne Hnotin].
  rewrite (load_ratings_cons u0 k0 r lines c mk Hk). rewrite IH; [|..|done].
  2:{ eapply Forall_impl; [exact Hall|]. intros l. apply present_with_rating. }
  rewrite (rating_of_with_rating c u0 k0 r mk Hk).
  rewrite decide_False; [done|]. intros [-> ->]. by apply Hne.
Qed.

Lemma load_ratings_rating_of_last u k r post pre :
  ∀ c, Forall (fun l => is_Some (movie_dict c !! l.1.2)) (pre ++ (u, k, r) :: post) →
  (u, k) ∉ post.*1 →
  rating_of (load_ratings (pre ++ (u, k, r) :: post) c).2 u k = Some r.
Proof.
  induction pre as [|[[u0 k0] r0] pre IH]; intros c Hall Hnotin.
  - apply Forall_cons in Hall as [[mk Hk] Hall]. simpl in Hk. simpl app.
    rewrite (load_ratings_cons u k r post c mk Hk).
    rewrite load_ratings_rating_of_notin; [|..|done].
    2:{ eapply Forall_impl; [exact Hall|]. intros l. apply present_with_rating. }
    rewrite (rating_of_with_rating c u k r mk Hk). by rewrite decide_True.
  - simpl app in *. apply Forall_cons in Hall as [[mk Hk] Hall]. simpl in Hk.
    rewrite (load_ratings_cons u0 k0 r0 _ c mk Hk). apply IH; [|done].
    eapply Forall_impl; [exact Hall|]. intros l. apply present_with_rating.
Qed.

(** X3.  After [__init__] has completed, the catalog holds what the training
    file says: the user list of a movie is the user ids of the lines for
    that movie, in file order and with repetitions; a (user, movie) pair
    that no line mentions has no rating; and the rating of a pair is the one
    of its last line. *)
Theorem init_contents movies ratings c :
  init movies ratings = (Ok tt, c) →
  (∀ k, raters c k = (filter (fun l => l.1.2 = k) ratings).*1.*1)
  ∧ (∀ u k, (u, k) ∉ ratings.*1 → rating_of c u k = None)
  ∧ (∀ pre u k r post, ratings = pre ++ (u, k, r) :: post →
       (u, k) ∉ post.*1 → rating_of c u k = Some r).
Proof.
  intros Hrun. unfold init in Hrun.
  set (c0 := MkState (load_movies movies) ∅ []) in *.
  assert (Hc : c = (load_ratings ratings c0).2) by (by rewrite Hrun).
  assert (Hall : Forall (fun l => is_Some (movie_dict c0 !! l.1.2)) ratings).
  { apply load_ratings_present. by rewrite Hrun. }
  split_and!.
  - intros k. rewrite Hc, load_ratings_raters by done.
    assert (H0 : raters c0 k = []); [|by rewrite H0].
    unfold raters. simpl.
    destruct (load_movies movies !! k) as [m|] eqn:Hm; [|done].
    by destruct (load_movies_fresh movies k m Hm) as (_ & ? & _).
  - intros u k Hnotin. by rewrite Hc, load_ratings_rating_of_notin.
  - intros pre u k r post -> Hnotin.
    by rewrite Hc, load_ratings_rating_of_last.
Qed.

Lemma init_contents_witness :
  (∀ k, raters demo k
        = (filter (fun l => l.1.2 = k)
             [(10, 1, 4%Q); (10, 2, 5%Q); (11, 1, 2%Q); (11, 2, 2%Q);
              (12, 1, 3%Q)]).*1.*1)
  ∧ rating_of demo 11 2 = Some 2%Q.
Proof.
  destruct (init_contents [(1, "A"); (2, "B")]
    [(10, 1, 4%Q); (10, 2, 5%Q); (11, 1, 2%Q); (11, 2, 2%Q); (12, 1, 3%Q)]
    demo) as (H1 & _ & H3).
  - by vm_compute.
  - split; [exact H1|].
    apply (H3 [(10, 1, 4%Q); (10, 2, 5%Q); (11, 1, 2%Q)] 11 2 2%Q [(12, 1, 3%Q)]).
    + reflexivity.
    + apply (bool_decide_unpack _). by vm_compute.
Defined.

(** X4.  A training file that rates no (user, movie) pair twice, over a
    movie file that knows every rated movie, gives a catalog with the
    integrity the engines rely on: each movie is stored under its id with a
    repetition-free user list, users and raters agree with the ratings,
    every user has a rating, the caches are empty and nothing is computed. *)
Theorem init_establishes_integrity movies ratings c :
  NoDup ratings.*1 → init movies ratings = (Ok tt, c) → loaded c.
Proof. apply init_loaded. Qed.

Lemma init_establishes_integrity_witness : loaded extremes.
Proof.
  apply (init_establishes_integrity [(1, "A"); (2, "B")]
           [(10, 1, 0.5%Q); (10, 2, 5%Q)]).
  - apply (bool_decide_unpack _). by vm_compute.
  - by vm_compute.
Defined.

(** ** The value of the similarity *)

Lemma Qsum_nonneg (l : list Q) :
  Forall (fun x => (0 <= x)%Q) l → (0 <= Qsum l)%Q.
Proof.
  induction 1 as [|x l Hx _ IH]; [by vm_compute|].
  rewrite Qsum_cons. lra.
Qed.

Lemma Qsum_le_length (l : list Q) (w : Q) :
  Forall (fun x => (x <= w)%Q) l →
  (Qsum l <= inject_Z (Z.of_nat (length l)) * w)%Q.
Proof.
  induction 1 as [|x l Hx _ IH].
  - vm_compute. discriminate.
  - rewrite Qsum_cons. cbn [length]. rewrite Nat2Z.inj_succ.
    unfold Z.succ. rewrite inject_Z_plus. change (inject_Z 1) with 1%Q.
    set (n := inject_Z (Z.of_nat (length l))) in *. nra.
Qed.

Lemma length_pos_Q {A} (l : list A) :
  l ≠ [] → (0 < inject_Z (Z.of_nat (length l)))%Q.
Proof.
  intros Hne. destruct l as [|x l]; [done|].
  unfold Qlt. simpl. lia.
Qed.

Lemma mean_abs_diff_nonneg c a b cs :
  cs ≠ [] → (0 <= mean_abs_diff c a b cs)%Q.
Proof.
  intros Hne. unfold mean_abs_diff.
  apply Qle_shift_div_l; [by apply length_pos_Q|].
  rewrite Qmult_0_l. apply Qsum_nonneg.
  apply Forall_fmap, Forall_forall. intros u _. apply Qabs_nonneg.
Qed.

Lemma similarity_over_le_1 c a b cs : (similarity_over c a b cs <= 1)%Q.
Proof.
  unfold similarity_over. destruct (decide (cs = [])) as [|Hne]; [lra|].
  pose proof (mean_abs_diff_nonneg c a b cs Hne) as Hm.
  assert (H : (0 <= mean_abs_diff c a b cs / 4.5)%Q).
  { apply Qle_shift_div_l; [reflexivity|]. lra. }
  lra.
Qed.

Lemma similarity_over_nonneg c a b cs :
  Forall (fun u => (abs_diff c a b u <= 4.5)%Q) cs →
  (0 <= similarity_over c a b cs)%Q.
Proof.
  intros Hall. unfold similarity_over.
  destruct (decide (cs = [])) as [|Hne]; [lra|].
  assert (Hm : (mean_abs_diff c a b cs <= 4.5)%Q).
  { unfold mean_abs_diff. apply Qle_shift_div_r; [by apply length_pos_Q|].
    rewrite Qmult_comm.
    rewrite <- (length_fmap (abs_diff c a b) cs).
    apply Qsum_le_length. by apply Forall_fmap. }
  assert (H : (mean_abs_diff c a b cs / 4.5 <= 1)%Q).
  { apply Qle_shift_div_r; [reflexivity|]. lra. }
  lra.
Qed.

Lemma ratings_within_rating c lo hi u k r :
  ratings_within c lo hi → rating_of c u k = Some r → (lo <= r <= hi)%Q.
Proof.
  intros Hw Hr. unfold rating_of in Hr.
  destruct (user_dict c !! u) as [d|] eqn:Hd; simpl in Hr; [|done].
  exact (Hw u d Hd k r Hr).
Qed.

Lemma abs_diff_within c lo hi a b u :
  ratings_within c lo hi →
  is_Some (rating_of c u a) → is_Some (rating_of c u b) →
  (abs_diff c a b u <= hi - lo)%Q.
Proof.
  intros Hw [x Hx] [y Hy]. unfold abs_diff, rating. rewrite Hx, Hy.
  cbn [from_option id].
  pose proof (ratings_within_rating c lo hi u a x Hw Hx).
  pose proof (ratings_within_rating c lo hi u b y Hw Hy).
  apply Qabs_Qle_condition. lra.
Qed.

Lemma common_raters_rated c a b u :
  wf c → u ∈ common_raters c a b →
  is_Some (rating_of c u a) ∧ is_Some (rating_of c u b).
Proof.
  intros Hwf Hu. unfold common_raters in Hu.
  apply list_elem_of_filter in Hu as [Hb Ha]. unfold raters in *.
  destruct (movie_dict c !! a) as [ma|] eqn:Hma; simpl in Ha;
    [|by apply elem_of_nil in Ha].
  destruct (movie_dict c !! b) as [mb|] eqn:Hmb; simpl in Hb;
    [|by apply elem_of_nil in Hb].
  destruct (wf_movie c a ma Hwf Hma) as (_ & _ & Hra).
  destruct (wf_movie c b mb Hwf Hmb) as (_ & _ & Hrb).
  split; [by apply Hra|by apply Hrb].
Qed.

Lemma similarity_range c lo hi a b :
  wf c → ratings_within c lo hi → (hi - lo <= 4.5)%Q →
  (0 <= similarity c a b <= 1)%Q.
Proof.
  intros Hwf Hw Hwidth. split; [|apply similarity_over_le_1].
  apply similarity_over_nonneg, Forall_forall. intros u Hu.
  destruct (common_raters_rated c a b u Hwf Hu) as [Ha Hb].
  pose proof (abs_diff_within c lo hi a b u Hw Ha Hb). lra.
Qed.



(** X6.  The computed similarity is never above 1, and when all the ratings
    of the catalog lie in an interval no wider than 4.5 (as on the 0.5 to
    5.0 scale) it is never below 0. *)
Theorem compute_similarity_range c a b :
  wf c → is_Some (movie_dict c !! a) → is_Some (movie_dict c !! b) →
  ∃ s c', compute_similarity a b c = (Ok s, c') ∧ (s <= 1)%Q ∧
    ∀ lo hi, ratings_within c lo hi → (hi - lo <= 4.5)%Q → (0 <= s)%Q.
Proof.
  intros Hwf [ma Ha] [mb Hb].
  exists (similarity c a b), (after_compute c a b).
  split; [by apply (compute_similarity_run c a b ma mb)|].
  split; [apply similarity_over_le_1|].
  intros lo hi Hw Hwidth. by apply (similarity_range c lo hi a b).
Qed.

Lemma compute_similarity_range_witness :
  ∃ s c', compute_similarity 1 2 extremes = (Ok s, c') ∧ (s <= 1)%Q ∧ (0 <= s)%Q.
Proof.
  destruct (compute_similarity_range extremes 1 2) as (s & c' & Hrun & H1 & H0).
  - apply (bool_decide_unpack _). by vm_compute.
  - by vm_compute; eexists.
  - by vm_compute; eexists.
  - exists s, c'. split_and!; [done..|].
    apply (H0 0.5%Q 5%Q).
    + apply (bool_decide_unpack _). by vm_compute.
    + by vm_compute.
Defined.

(** ** Unknown ids *)

(** X7.  [compute_similarity] has no handler of its own: with an unknown
    [other_movie_id] it raises a plain [KeyError] as soon as the receiver
    has a rater, and returns 0 when the receiver has none (the loop that
    would look the other movie up never runs); no cache is written. *)
Theorem compute_similarity_unknown_other c a b ma :
  movie_dict c !! a = Some ma → movie_dict c !! b = None →
  ∃ c', compute_similarity a b c
        = (if decide (Movie.users ma = []) then Ok 0%Q else Err KeyError, c')
        ∧ movie_dict c' = movie_dict c.
Proof.
  intros Ha Hb. exists (record_call a b c).
  by rewrite (compute_similarity_other_absent c a b ma).
Qed.

Lemma compute_similarity_unknown_other_witness :
  (∃ c', compute_similarity 1 7 sparse = (Err KeyError, c')
         ∧ movie_dict c' = movie_dict sparse)
  ∧ (∃ c', compute_similarity 2 7 sparse = (Ok 0%Q, c')
           ∧ movie_dict c' = movie_dict sparse).
Proof.
  split.
  - apply (compute_similarity_unknown_other sparse 1 7 (Movie.Make 1 "A" [10] ∅));
      by vm_compute.
  - apply (compute_similarity_unknown_other sparse 2 7 (Movie.Make 2 "B" [] ∅));
      by vm_compute.
Defined.

(** X8.  [get_similarity] with an [other_movie_id] that is not in the
    catalog (and not yet in the receiver's cache) raises [BadInputError].
    When the receiver has a rater nothing is cached.  When it has none, the
    value 0 has already been filed under the unknown id before the error is
    raised, so that the same call repeated returns 0 instead of raising. *)
Theorem get_similarity_unknown_other c a b ma :
  movie_dict c !! a = Some ma → Movie.similarities ma !! b = None →
  movie_dict c !! b = None →
  ∃ c1, get_similarity a b c = (Err BadInputError, c1) ∧
    (Movie.users ma ≠ [] → movie_dict c1 = movie_dict c) ∧
    (Movie.users ma = [] →
       cached c1 a b = Some 0%Q ∧ get_similarity a b c1 = (Ok 0%Q, c1)).
Proof.
  intros Ha Hs Hb.
  unfold get_similarity at 1, mbind, M_bind, read, try_KeyError.
  unfold getitem at 1. rewrite Ha.
  rewrite decide_False by (rewrite Hs; by intros [? ?]).
  rewrite (compute_similarity_other_absent c a b ma) by done.
  destruct (decide (Movie.users ma = [])) as [He|Hne]; simpl.
  - unfold getitem. rewrite lookup_alter_ne by congruence. simpl. rewrite Hb.
    simpl. eexists. split; [done|]. split; [done|]. intros _.
    assert (Hc : cached (store_similarity a b 0 (record_call a b c)) a b = Some 0%Q).
    { apply cached_store_eq. simpl. eauto. }
    split; [done|]. by apply get_similarity_cached.
  - eexists. split; [done|]. split; [done|]. intros He. by destruct Hne.
Qed.

Lemma get_similarity_unknown_other_witness :
  ∃ c1, get_similarity 2 7 sparse = (Err BadInputError, c1) ∧
        cached c1 2 7 = Some 0%Q ∧ get_similarity 2 7 c1 = (Ok 0%Q, c1).
Proof.
  destruct (get_similarity_unknown_other sparse 2 7 (Movie.Make 2 "B" [] ∅))
    as (c1 & H1 & _ & H3); [by vm_compute..|].
  exists c1. split; [done|]. by apply H3.
Defined.

(** ** Which cache entries an operation can touch *)

Lemma compute_similarity_post c a b :
  (compute_similarity a b c).2 = c
  ∨ (compute_similarity a b c).2 = record_call a b c
  ∨ ∃ s, (compute_similarity a b c).2
         = store_similarity a b s (record_call a b c).
Proof.
  unfold compute_similarity, mbind, M_bind, read, modify.
  destruct (getitem (movie_dict c) a) as [me|e]; simpl; [|by left].
  destruct (common_users_loop _ _ _ _) as [cu|e]; simpl; [|by right; left].
  destruct (ratings_loop _ _ _ _ _ _) as [rs|e]; simpl; [|by right; left].
  destruct (decide (length cu = 0%nat)); simpl; [by right; left|].
  destruct (diff_loop _ _ _) as [dl|e]; simpl; [|by right; left].
  right; right. by eexists.
Qed.

Lemma cached_compute_similarity_ne c a b x y :
  (x, y) ≠ (a, b) → cached (compute_similarity a b c).2 x y = cached c x y.
Proof.
  intros Hne.
  destruct (compute_similarity_post c a b) as [->|[->|[s ->]]]; [done..|].
  by rewrite cached_store_ne.
Qed.

Lemma cached_store_is_Some c a b s x y :
  is_Some (cached c x y) → is_Some (cached (store_similarity a b s c) x y).
Proof.
  intros Hs. destruct (decide ((x, y) = (a, b))) as [[= -> ->]|Hne].
  - rewrite cached_store_eq; [by eexists|].
    unfold cached in Hs. destruct (movie_dict c !! a); [by eexists|].
    simpl in Hs. by destruct Hs.
  - by rewrite cached_store_ne.
Qed.

Lemma cached_compute_similarity_is_Some c a b x y :
  is_Some (cached c x y) → is_Some (cached (compute_similarity a b c).2 x y).
Proof.
  intros Hs.
  destruct (compute_similarity_post c a b) as [->|[->|[s ->]]]; [done..|].
  by apply cached_store_is_Some.
Qed.

Lemma predict_loop_footprint u m ks x y :
  (y ≠ m ∨ x ∉ ks) →
  ∀ p s c, cached (predict_loop u m ks p s c).2 x y = cached c x y.
Proof.
  intros Hxy. induction ks as [|k ks IH]; intros p s c; simpl; [done|].
  unfold mbind at 1, M_bind at 1, read at 1.
  destruct (getitem (user_dict c) u) as [d|e]; [|done].
  unfold mbind at 1, M_bind at 1, read at 1.
  destruct (getitem d k) as [r|e]; [|done].
  unfold mbind at 1, M_bind at 1.
  assert (Hk : cached (compute_similarity k m c).2 x y = cached c x y).
  { apply cached_compute_similarity_ne. intros [= -> ->].
    destruct Hxy as [Hy|Hx]; [done|]. apply Hx, list_elem_of_here. }
  destruct (compute_similarity k m c) as [[q|e] c1]; simpl in *; [|done].
  rewrite IH; [done|]. destruct Hxy as [Hy|Hx]; [by left|right].
  intros Hin. apply Hx. by apply list_elem_of_further.
Qed.

Lemma predict_loop_is_Some u m ks x y :
  ∀ p s c, is_Some (cached c x y) →
           is_Some (cached (predict_loop u m ks p s c).2 x y).
Proof.
  induction ks as [|k ks IH]; intros p s c Hs; simpl; [done|].
  unfold mbind at 1, M_bind at 1, read at 1.
  destruct (getitem (user_dict c) u) as [d|e]; [|done].
  unfold mbind at 1, M_bind at 1, read at 1.
  destruct (getitem d k) as [r|e]; [|done].
  unfold mbind at 1, M_bind at 1.
  pose proof (cached_compute_similarity_is_Some c k m x y Hs) as Hk.
  destruct (compute_similarity k m c) as [[q|e] c1]; simpl in *; [|done].
  by apply IH.
Qed.

(** The state [predict_rating] leaves is the one its loop leaves, or the
    state it started from. *)
Lemma predict_rating_post c u m :
  (predict_rating u m c).2 = c
  ∨ ∃ d, user_dict c !! u = Some d ∧ d !! m = None ∧
         (predict_rating u m c).2
         = (predict_loop u m (map_to_list d).*1 0%Q 0%Q c).2.
Proof.
  destruct (user_dict c !! u) as [d|] eqn:Hd.
  2:{ left. by rewrite predict_rating_unknown_user. }
  destruct (d !! m) as [r|] eqn:Hm.
  { left. by rewrite (predict_rating_recorded c u m d r). }
  right. exists d. split; [done|]. split; [done|].
  unfold predict_rating, try_KeyError, mbind at 1, M_bind at 1, read at 1.
  unfold getitem at 1. rewrite Hd.
  rewrite decide_False by (rewrite Hm; by intros [? ?]).
  unfold mbind at 1, M_bind at 1, read at 1. unfold getitem at 1. rewrite Hd.
  unfold mbind at 1, M_bind at 1.
  destruct (predict_loop u m (map_to_list d).*1 0%Q 0%Q c) as [[acc|[]] c1];
    simpl; try done.
  by destruct (Qeq_bool acc.2 0).
Qed.

(** X9.  [predict_rating(u, m)] can only touch the cache entries filed
    under key [m] in the caches of the movies [u] has rated: every other
    entry, and the whole cache of the target movie [m], is left as it was. *)
Theorem predict_rating_footprint c u m :
  (∀ x y, y ≠ m ∨ rating_of c u x = None →
          cached (predict_rating u m c).2 x y = cached c x y)
  ∧ (∀ y, cached (predict_rating u m c).2 m y = cached c m y).
Proof.
  assert (H : ∀ x y, y ≠ m ∨ rating_of c u x = None →
            cached (predict_rating u m c).2 x y = cached c x y).
  { intros x y Hxy.
    destruct (predict_rating_post c u m) as [->|(d & Hd & Hm & ->)]; [done|].
    apply predict_loop_footprint. destruct Hxy as [Hy|Hx]; [by left|right].
    unfold rating_of in Hx. rewrite Hd in Hx. simpl in Hx.
    intros Hin. apply list_elem_of_fmap in Hin as ([k r] & -> & Hin).
    apply elem_of_map_to_list in Hin. simpl in Hx. congruence. }
  split; [done|]. intros y.
  destruct (predict_rating_post c u m) as [->|(d & Hd & Hm & _)]; [done|].
  apply H. right. unfold rating_of. by rewrite Hd.
Qed.

Lemma get_similarity_post_is_Some c a b x y :
  is_Some (cached c x y) → is_Some (cached (get_similarity a b c).2 x y).
Proof.
  intros Hs. unfold get_similarity, mbind at 1, M_bind at 1, read at 1.
  destruct (getitem (movie_dict c) a) as [me|e]; [|done].
  unfold try_KeyError.
  destruct (decide (is_Some (Movie.similarities me !! b))).
  { unfold read. by destruct (getitem (Movie.similarities me) b) as [?|[]]. }
  unfold mbind at 1, M_bind at 1.
  pose proof (cached_compute_similarity_is_Some c a b x y Hs) as Hk.
  destruct (compute_similarity a b c) as [[q|[]] c1]; simpl in *; try done.
  unfold mbind, M_bind, modify, read.
  pose proof (cached_store_is_Some c1 a b q x y Hk) as Hk1.
  destruct (getitem (movie_dict (store_similarity a b q c1)) b) as [?|[]];
    simpl; try done.
  by apply cached_store_is_Some.
Qed.

(** X10.  The caches only grow: an entry that is present stays present
    through any sequence of engine operations, whether they return or
    raise. *)
Theorem cache_entries_persist c ops x y :
  is_Some (cached c x y) → is_Some (cached (run ops c) x y).
Proof.
  revert c. induction ops as [|o ops IH]; intros c Hs; simpl; [done|].
  apply IH. destruct o as [a b|u m]; simpl.
  - by apply get_similarity_post_is_Some.
  - destruct (predict_rating_post c u m) as [->|(d & _ & _ & ->)]; [done|].
    by apply predict_loop_is_Some.
Qed.

Lemma cache_entries_persist_witness :
  is_Some (cached (run [GetSimilarity 1 2; PredictRating 12 2; GetSimilarity 2 2]
                       (run [GetSimilarity 1 2] demo)) 2 1).
Proof.
  apply (cache_entries_persist (run [GetSimilarity 1 2] demo)).
  by vm_compute; eexists.
Defined.

(** ** The caches along sequences of operations *)


Lemma present_run ops c k :
  is_Some (movie_dict c !! k) → is_Some (movie_dict (run ops c) !! k).
Proof. intros H. by apply (same_data_present _ c); [apply same_data_run|]. Qed.

Lemma run_gets_symmetric pairs :
  ∀ c, wf c → cache_symmetric c →
       cache_symmetric (run ((fun p => GetSimilarity p.1 p.2) <$> pairs) c).
Proof.
  induction pairs as [|[a b] pairs IH]; intros c Hwf Hsym; simpl; [done|].
  apply IH.
  - apply (same_data_wf _ c); [apply frames_get_similarity|done].
  - by apply get_similarity_keeps_symmetry.
Qed.

(** X11.  As long as only [get_similarity] is called on a loaded catalog,
    the caches stay symmetric: the entry of movie [a] for [b] and the entry
    of movie [b] for [a] are both missing or hold the identical value. *)
Theorem get_similarity_runs_symmetric c0 pairs a b :
  loaded c0 → is_Some (movie_dict c0 !! a) → is_Some (movie_dict c0 !! b) →
  cached (run ((fun p => GetSimilarity p.1 p.2) <$> pairs) c0) a b
  = cached (run ((fun p => GetSimilarity p.1 p.2) <$> pairs) c0) b a.
Proof.
  intros Hl Ha Hb.
  apply run_gets_symmetric; [apply Hl|by apply loaded_cache_symmetric|..];
    by apply present_run.
Qed.

Lemma get_similarity_runs_symmetric_witness :
  cached (run ((fun p => GetSimilarity p.1 p.2) <$> [(1, 2); (2, 2); (1, 7)])
              demo) 1 2
  = cached (run ((fun p => GetSimilarity p.1 p.2) <$> [(1, 2); (2, 2); (1, 7)])
                demo) 2 1.
Proof.
  apply (get_similarity_runs_symmetric demo [(1, 2); (2, 2); (1, 7)] 1 2).
  - apply (bool_decide_unpack _). by vm_compute.
  - by vm_compute; eexists.
  - by vm_compute; eexists.
Defined.



(** ** Predictions *)

(** X13.  What [predict_rating] returns or raises does not depend on the
    caches: on a well-formed catalog it is the same before and after any
    sequence of engine operations. *)
Theorem predict_rating_ignores_caches c0 ops u m :
  wf c0 → (predict_rating u m (run ops c0)).1 = (predict_rating u m c0).1.
Proof.
  intros Hwf. apply predict_rating_same_data; [done|apply same_data_run].
Qed.

Lemma predict_rating_ignores_caches_witness :
  (predict_rating 12 2
     (run [GetSimilarity 2 1; PredictRating 11 2; PredictRating 12 2] demo)).1
  = (predict_rating 12 2 demo).1.
Proof.
  apply (predict_rating_ignores_caches demo).
  apply (bool_decide_unpack _). by vm_compute.
Defined.

(** X14.  No-signal fallback: when none of the movies the user rated has a
    rater in common with the target movie, the prediction is exactly 2.5. *)
Theorem predict_rating_no_signal c u m d :
  wf c → user_dict c !! u = Some d → d !! m = None →
  is_Some (movie_dict c !! m) →
  (∀ k, is_Some (d !! k) → common_raters c k m = []) →
  ∃ c', predict_rating u m c = (Ok 2.5%Q, c').
Proof.
  intros Hwf Hd Hm Hpm Hnone.
  destruct (predict_rating_estimate c u m d Hwf Hd Hm Hpm) as (c' & _ & Hp).
  exists c'. rewrite Hp. f_equal. f_equal. unfold weighted_average.
  assert (Hz : (weight_sum c d m == 0)%Q).
  { unfold weight_sum. apply Qsum_all_zero, Forall_fmap, Forall_forall.
    intros [k r] Hkr. simpl. unfold similarity.
    rewrite Hnone; [reflexivity|].
    apply elem_of_map_to_list in Hkr. by eexists. }
  apply Qeq_bool_iff in Hz. by rewrite Hz.
Qed.

Lemma predict_rating_no_signal_witness :
  ∃ c', predict_rating 10 2 sparse = (Ok 2.5%Q, c').
Proof.
  apply (predict_rating_no_signal sparse 10 2 {[1%Z := 4%Q]}).
  - apply (bool_decide_unpack _). by vm_compute.
  - by vm_compute.
  - by vm_compute.
  - by vm_compute; eexists.
  - intros k [r Hk]. apply lookup_singleton_Some in Hk as [<- _]. by vm_compute.
Defined.






(** ** Batches *)

Lemma emitted_functional c r t t' : emitted c r t → emitted c r t' → t = t'.
Proof.
  intros (mv & p & Hmv & Hp & ->) (mv' & p' & Hmv' & Hp' & ->). congruence.
Qed.

Lemma Forall2_emitted_functional c rows :
  ∀ o o', Forall2 (emitted c) rows o → Forall2 (emitted c) rows o' → o = o'.
Proof.
  induction rows as [|r rows IH]; intros o o' H H'.
  - apply Forall2_nil_inv_l in H, H'. congruence.
  - apply Forall2_cons_inv_l in H as (t & o1 & Ht & Ho & ->).
    apply Forall2_cons_inv_l in H' as (t' & o1' & Ht' & Ho' & ->).
    f_equal; [by apply (emitted_functional c r)|by apply IH].
Qed.

(** X17.  One batch or two: on a well-formed catalog, for rows with known
    ids, the list returned for the concatenation of two batches is the
    concatenation of the lists returned for each of them (the cache entries
    left by the first batch do not change the tuples of the second). *)
Theorem predict_ratings_app c rows1 rows2 :
  wf c → Forall (known c) rows1 → Forall (known c) rows2 →
  ∃ o1 o2 c1 c2 c3,
    predict_ratings rows1 c = (Ok o1, c1) ∧
    predict_ratings rows2 c = (Ok o2, c2) ∧
    predict_ratings (rows1 ++ rows2) c = (Ok (o1 ++ o2), c3).
Proof.
  intros Hwf H1 H2.
  destruct (predict_ratings_loop_ok c rows1 Hwf H1 c [] (same_data_refl c))
    as (o1 & c1 & _ & Hr1 & Ho1).
  destruct (predict_ratings_loop_ok c rows2 Hwf H2 c [] (same_data_refl c))
    as (o2 & c2 & _ & Hr2 & Ho2).
  destruct (predict_ratings_loop_ok c (rows1 ++ rows2) Hwf
              (proj2 (Forall_app _ _ _) (conj H1 H2)) c [] (same_data_refl c))
    as (o & c3 & _ & Hr & Ho).
  exists o1, o2, c1, c2, c3. split_and!; [done..|].
  rewrite (Forall2_emitted_functional c (rows1 ++ rows2) (o1 ++ o2) o);
    [done| |done].
  by apply Forall2_app.
Qed.

Lemma predict_ratings_app_witness :
  ∃ o1 o2 c1 c2 c3,
    predict_ratings [(12, 2, 1%Q); (10, 1, 2%Q)] demo = (Ok o1, c1) ∧
    predict_ratings [(11, 2, 3%Q); (12, 2, 5%Q)] demo = (Ok o2, c2) ∧
    predict_ratings ([(12, 2, 1%Q); (10, 1, 2%Q)] ++ [(11, 2, 3%Q); (12, 2, 5%Q)])
      demo = (Ok (o1 ++ o2), c3).
Proof.
  apply (predict_ratings_app demo).
  - apply (bool_decide_unpack _). by vm_compute.
  - repeat constructor; by vm_compute; eexists.
  - repeat constructor; by vm_compute; eexists.
Defined.

(** ** The order of the user's ratings *)




(** ** [__str__] *)

Lemma has_space_pretty_N_go x :
  ∀ s, has_space (pretty_N_go x s) = has_space s.
Proof.
  induction (N.lt_wf_0 x) as [x _ IH]; intros s.
  assert (x = 0 ∨ 0 < x)%N as [->|Hx] by lia.
  - by rewrite pretty_N_go_0.
  - rewrite pretty_N_go_step by done. rewrite IH by (by apply N.div_lt).
    simpl. unfold pretty_N_char. by repeat case_match.
Qed.

Lemma has_space_pretty_Z (z : Z) : has_space (pretty z) = false.
Proof.
  assert (HN : ∀ n : N, has_space (pretty n) = false).
  { intros n. unfold pretty, pretty_N. case_decide; [done|].
    by rewrite has_space_pretty_N_go. }
  destruct z as [|p|p]; [done|apply HN|].
  unfold pretty, pretty_Z. simpl. apply HN.
Qed.

Lemma app_space_inv (a a' r r' : string) :
  has_space a = false → has_space a' = false →
  a +:+ String " " r = a' +:+ String " " r' → a = a' ∧ r = r'.
Proof.
  revert a'. induction a as [|x a IH]; intros [|x' a'] Ha Ha' Heq; simpl in *.
  - by injection Heq.
  - injection Heq as <- _. by rewrite decide_True in Ha'.
  - injection Heq as -> _. by rewrite decide_True in Ha.
  - injection Heq as <- Heq.
    destruct (decide (x = " "%char)); [done|].
    destruct (IH a' Ha Ha' Heq) as [-> ->]. done.
Qed.

(** X19.  The string [__str__] gives for a movie determines its id and its
    title: two movies that print alike have the same id and the same
    title. *)
Theorem Movie_str_inj m1 m2 :
  Movie_str m1 = Movie_str m2 →
  Movie.id m1 = Movie.id m2 ∧ Movie.title m1 = Movie.title m2.
Proof.
  unfold Movie_str. intros Heq.
  apply (inj (String.append "id: ")) in Heq.
  change (" title: " +:+ Movie.title m1)
    with (String " " ("title: " +:+ Movie.title m1)) in Heq.
  change (" title: " +:+ Movie.title m2)
    with (String " " ("title: " +:+ Movie.title m2)) in Heq.
  apply app_space_inv in Heq as [Hid Ht]; [|apply has_space_pretty_Z..].
  split; [by apply (inj pretty)|].
  by apply (inj (String.append "title: ")) in Ht.
Qed.

Lemma Movie_str_inj_witness :
  Movie.id (Movie.Make 7 "Heat (1995)" [10] ∅)
  = Movie.id (Movie.Make 7 "Heat (1995)" [] {[1%Z := 1%Q]})
  ∧ Movie.title (Movie.Make 7 "Heat (1995)" [10] ∅)
    = Movie.title (Movie.Make 7 "Heat (1995)" [] {[1%Z := 1%Q]}).
Proof.
  apply (Movie_str_inj (Movie.Make 7 "Heat (1995)" [10] ∅)
           (Movie.Make 7 "Heat (1995)" [] {[1%Z := 1%Q]})).
  by vm_compute.
Defined.

(** X20.  [get_similarity a b] can only touch two cache entries: the one of
    the receiver for [b] and the one of movie [b] for the receiver's id;
    every other entry of every cache is left as it was. *)
Theorem get_similarity_footprint c a b ma x y :
  movie_dict c !! a = Some ma →
  (x, y) ≠ (a, b) → (x, y) ≠ (b, Movie.id ma) →
  cached (get_similarity a b c).2 x y = cached c x y.
Proof.
  intros Ha H1 H2. unfold get_similarity, mbind at 1, M_bind at 1, read at 1.
  unfold getitem at 1. rewrite Ha. unfold try_KeyError.
  destruct (decide (is_Some (Movie.similarities ma !! b))).
  { unfold read. by destruct (getitem (Movie.similarities ma) b) as [?|[]]. }
  unfold mbind at 1, M_bind at 1.
  pose proof (cached_compute_similarity_ne c a b x y H1) as Hk.
  destruct (compute_similarity a b c) as [[q|[]] c1]; simpl in *; try done.
  unfold mbind, M_bind, modify, read.
  pose proof (cached_store_ne c1 a b q x y H1) as Hk1.
  destruct (getitem (movie_dict (store_similarity a b q c1)) b) as [?|[]];
    simpl; try congruence.
  rewrite cached_store_ne by done. congruence.
Qed.

Lemma get_similarity_footprint_witness :
  cached (get_similarity 1 2 (run [PredictRating 10 3] triple)).2 1 3
  = cached (run [PredictRating 10 3] triple) 1 3.
Proof.
  eapply (get_similarity_footprint (run [PredictRating 10 3] triple) 1 2).
  - vm_compute. reflexivity.
  - done.
  - done.
Defined.
